(** * Greedy label placement (Label_placer), embedded in Rocq

    The two C++ files [Source.cpp] and [main.cpp] share one algorithm:
    [hasOverlap] scans the already placed labels with
    [boost::geometry::intersects], and [placeLabels] tries, for every input
    point in order, a fixed list of candidate offsets and keeps the first
    candidate box that overlaps nothing placed so far.  They differ only in
    the constants of [placeLabels] (label size and offsets).

    Coordinates are C++ [double]s, modelled by Rocq's primitive IEEE-754
    binary64 floats, so every sum below rounds exactly as the program's.
    [boost::geometry::model::point<double,2,cartesian>] is a record of two
    floats, [box] a record of its two stored corners (the constructor stores
    its arguments as given), [labeled_point] the C++ struct.

    [main.cpp]'s drawing code is embedded up to its OpenCV calls: the
    conversion of world points and boxes to image coordinates, with C++
    [int] arithmetic and [static_cast<int>], the box centre, and the loop
    that reports unlabeled points. *)

From Stdlib Require Import Floats String List Bool Arith ZArith Lia.
Import ListNotations.

Set Warnings "-inexact-float".

(** ** Data model *)

Record point_t := mk_point { get0 : float; get1 : float }.

(** [bg::set<0>] and [bg::set<1>]. *)
Definition set0 (p : point_t) (v : float) : point_t := mk_point v (get1 p).
Definition set1 (p : point_t) (v : float) : point_t := mk_point (get0 p) v.

Record box_t := mk_box { min_corner : point_t; max_corner : point_t }.

Record labeled_point := mk_labeled_point {
  point : point_t;
  label : string;
  label_box : box_t
}.

(** ** [bg::intersects] on two cartesian boxes

    Boost implements [intersects(b1, b2)] as [!disjoint(b1, b2)], and the
    cartesian box/box [disjoint] test checks dimension 0 then dimension 1:
    [if (max1[D] < min2[D]) return true; if (min1[D] > max2[D]) return true;].
    [a > b] on doubles is [b < a]. *)

Definition disjoint_dim (get : point_t -> float) (box1 box2 : box_t) : bool :=
  if (get (max_corner box1) <? get (min_corner box2))%float then true
  else if (get (max_corner box2) <? get (min_corner box1))%float then true
  else false.

Definition disjoint (box1 box2 : box_t) : bool :=
  if disjoint_dim get0 box1 box2 then true else disjoint_dim get1 box1 box2.

Definition intersects (box1 box2 : box_t) : bool := negb (disjoint box1 box2).

(** [hasOverlap]: the loop over [placed_labels] with its early return. *)
Fixpoint hasOverlap (candidate : box_t) (placed_labels : list labeled_point) : bool :=
  match placed_labels with
  | [] => false
  | placed :: rest =>
      if intersects candidate (label_box placed) then true
      else hasOverlap candidate rest
  end.

(** ** [placeLabels], for given constants

    The body of [placeLabels] with its three constants [label_width],
    [label_height] and [offsets] as section variables; [Source] and [Main]
    below instantiate them with the values of each file. *)

Module Placement.
Section Placement.

Variables label_width label_height : float.
Variable offsets : list (float * float).

(** One candidate box: [corner1] and [corner2] start as copies of [pt] and
    have their coordinates set as in the C++ loop body. *)
Definition candidate_box (pt : point_t) (offset : float * float) : box_t :=
  let '(offset_x, offset_y) := offset in
  let corner1 := set0 pt (get0 pt + offset_x)%float in
  let corner1 := set1 corner1 (get1 pt + offset_y)%float in
  let corner2 := set0 pt (get0 corner1 + label_width)%float in
  let corner2 := set1 corner2 (get1 corner1 + label_height)%float in
  mk_box corner1 corner2.

(** The inner loop over the offsets, with its [break]: the first candidate
    free of overlap becomes [successfully_placed]. *)
Fixpoint try_offsets (pt : point_t) (label_str : string)
    (offs : list (float * float)) (result : list labeled_point)
    : option labeled_point :=
  match offs with
  | [] => None
  | offset :: rest =>
      let cand := candidate_box pt offset in
      if negb (hasOverlap cand result)
      then Some (mk_labeled_point pt label_str cand)
      else try_offsets pt label_str rest result
  end.

(** One iteration of the outer loop: [push_back] when a position was found. *)
Definition place_step (result : list labeled_point) (entry : point_t * string)
    : list labeled_point :=
  let '(pt, label_str) := entry in
  match try_offsets pt label_str offsets result with
  | Some placed => result ++ [placed]
  | None => result
  end.

Definition placeLabels (input_points : list (point_t * string)) : list labeled_point :=
  fold_left place_step input_points [].

(** The same loops as a big-step relation: [try_rel pt s result offs o]
    holds when the inner loop over [offs] ends with [successfully_placed = o];
    [loop_rel result input final] when the outer loop, started from
    [result], ends with [final]. *)
Inductive try_rel (pt : point_t) (label_str : string) (result : list labeled_point)
    : list (float * float) -> option labeled_point -> Prop :=
| try_exhausted : try_rel pt label_str result [] None
| try_found offset rest :
    hasOverlap (candidate_box pt offset) result = false ->
    try_rel pt label_str result (offset :: rest)
      (Some (mk_labeled_point pt label_str (candidate_box pt offset)))
| try_next offset rest o :
    hasOverlap (candidate_box pt offset) result = true ->
    try_rel pt label_str result rest o ->
    try_rel pt label_str result (offset :: rest) o.

Inductive loop_rel : list labeled_point -> list (point_t * string) -> list labeled_point -> Prop :=
| loop_end result : loop_rel result [] result
| loop_push result pt label_str rest placed final :
    try_rel pt label_str result offsets (Some placed) ->
    loop_rel (result ++ [placed]) rest final ->
    loop_rel result ((pt, label_str) :: rest) final
| loop_drop result pt label_str rest final :
    try_rel pt label_str result offsets None ->
    loop_rel result rest final ->
    loop_rel result ((pt, label_str) :: rest) final.

End Placement.
End Placement.

(** ** The constants of each file *)

Module Source.
Local Open Scope float_scope.
Definition label_width : float := 6.0.
Definition label_height : float := 2.0.
(** TR, TL, BR, BL *)
Definition offsets : list (float * float) :=
  [ (1, 1); (-1 - label_width, 1); (1, -1 - label_height);
    (-1 - label_width, -1 - label_height) ].
Definition placeLabels (input_points : list (point_t * string)) : list labeled_point :=
  Placement.placeLabels label_width label_height offsets input_points.
End Source.

Module Main.
Local Open Scope float_scope.
Definition label_width : float := 0.4.
Definition label_height : float := 0.2.
Definition offsets : list (float * float) :=
  [ (0.2, 0.2); (-0.2 - label_width, 0.2); (0.2, -0.2 - label_height);
    (-0.2 - label_width, -0.2 - label_height) ].
Definition placeLabels (input_points : list (point_t * string)) : list labeled_point :=
  Placement.placeLabels label_width label_height offsets input_points.
End Main.


(** Subsequences: [subseq l1 l2] when [l1] is [l2] with some entries left out. *)
Inductive subseq {A : Type} : list A -> list A -> Prop :=
| subseq_nil : subseq [] []
| subseq_keep x l1 l2 : subseq l1 l2 -> subseq (x :: l1) (x :: l2)
| subseq_skip x l1 l2 : subseq l1 l2 -> subseq l1 (x :: l2).

(** The (point, label) identity of a placed entry. *)
Definition entry_of (lp : labeled_point) : point_t * string := (point lp, label lp).

(** The predicate of the spec's overlap sentence, for comparison with
    [intersects]: the projections on both axes meet in an interval of
    non-zero length (strict inequalities, so boxes that only touch do not
    count). *)
Definition overlaps_with_area (box1 box2 : box_t) : bool :=
  (get0 (min_corner box1) <? get0 (max_corner box2))%float &&
  (get0 (min_corner box2) <? get0 (max_corner box1))%float &&
  (get1 (min_corner box1) <? get1 (max_corner box2))%float &&
  (get1 (min_corner box2) <? get1 (max_corner box1))%float.

(** The loop invariant behind C1: no two entries of [result] intersect. *)
Definition pairwise_free (result : list labeled_point) : Prop :=
  forall i j a b, i <> j -> nth_error result i = Some a -> nth_error result j = Some b ->
  intersects (label_box a) (label_box b) = false.

(** Scaled value of a finite or zero binary64 number: the number times
    2^1074, an integer. *)
Definition sval (x : spec_float) : Z :=
  match x with
  | S754_finite s m e => cond_Zopp s (Z.pos m * 2 ^ (e + 1074))%Z
  | _ => 0%Z
  end.

(** * Round to nearest, ties to even, on exact scaled values

    [rnd T] is the binary64 rounding of the non-negative number
    [T / 2^2148] (the scale of a product of two [sval]s), written with
    integers: the grid step is [2^(rnd_exp T)], 53 significant bits above
    the subnormal range. [srnd] extends it to signed values. These are the
    reference against which [SFmul] is characterised below. *)

Module Rounding.
Local Open Scope Z_scope.

(** What [shr_1] iterated [k] times keeps of a mantissa [M]: the quotient,
    the round bit and the sticky bit. *)
Definition shr_inv (M k : Z) (mrs : shr_record) : Prop :=
  shr_m mrs = M / 2 ^ k /\
  shr_r mrs = (0 <? k) && (2 ^ (k - 1) <=? M mod 2 ^ k) /\
  shr_s mrs = (0 <? k) && negb (M mod 2 ^ (k - 1) =? 0).

(** Whether the quotient [q] of a division by [g] with remainder [rem]
    rounds up (to nearest, ties to even). *)
Definition round_up (q rem g : Z) : bool :=
  (g <? 2 * rem) || ((2 * rem =? g) && Z.odd q).

Definition rnd_exp (T : Z) : Z := Z.max (Z.log2 T + 1 - 2148 - 53) (-1074).

Definition rnd (T : Z) : Z :=
  let g := 2 ^ (rnd_exp T + 2148) in
  let q := T / g in
  (q + if round_up q (T mod g) g then 1 else 0) * g.

Definition srnd (V : Z) : Z := if 0 <=? V then rnd V else - rnd (- V).

Definition fin_or_zero (f : spec_float) : bool :=
  match f with S754_zero _ | S754_finite _ _ _ => true | _ => false end.

End Rounding.

(** * Image coordinates ([main.cpp], lines 75-86 and 89-177)

    C++ [int] arithmetic is 32-bit; a result outside its range is undefined
    behaviour, modelled as [None]. [static_cast<int>] of a [double]
    truncates toward zero and is undefined for NaN, infinities and values
    whose truncation is not an [int]. [cv::Point] and [cv::Rect] are
    records of [int]s. *)

Module Image.
Local Open Scope Z_scope.

Definition INT_MIN : Z := - 2 ^ 31.
Definition INT_MAX : Z := 2 ^ 31 - 1.

Definition int_result (z : Z) : option Z :=
  if (INT_MIN <=? z) && (z <=? INT_MAX) then Some z else None.

Definition int_add (a b : Z) : option Z := int_result (a + b).
Definition int_sub (a b : Z) : option Z := int_result (a - b).

(** [static_cast<int>(x)]: the exact value [sval x / 2^1074] truncated. *)
Definition static_cast_int (x : float) : option Z :=
  match Prim2SF x with
  | S754_zero _ | S754_finite _ _ _ => int_result (Z.quot (sval (Prim2SF x)) (2 ^ 1074))
  | _ => None
  end.

Record cv_Point := mk_cv_Point { pt_x : Z; pt_y : Z }.
Record cv_Rect := mk_cv_Rect { rect_x : Z; rect_y : Z; rect_width : Z; rect_height : Z }.

Definition worldToImage (world_point : point_t) (scale : float) (image_size : Z)
  : option cv_Point :=
  match static_cast_int (get0 world_point * scale)%float with
  | None => None
  | Some x =>
      match static_cast_int (get1 world_point * scale)%float with
      | None => None
      | Some t =>
          match int_sub image_size t with
          | None => None
          | Some y => Some (mk_cv_Point x y)
          end
      end
  end.

(** OpenCV's [Rect_(const Point_& pt1, const Point_& pt2)]: the smaller
    coordinates, and the differences of the larger ones to them. *)
Definition cv_Rect_of_points (pt1 pt2 : cv_Point) : option cv_Rect :=
  let x := Z.min (pt_x pt1) (pt_x pt2) in
  let y := Z.min (pt_y pt1) (pt_y pt2) in
  match int_sub (Z.max (pt_x pt1) (pt_x pt2)) x,
        int_sub (Z.max (pt_y pt1) (pt_y pt2)) y with
  | Some width, Some height => Some (mk_cv_Rect x y width height)
  | _, _ => None
  end.

Definition worldBoxToImageRect (box : box_t) (scale : float) (image_size : Z)
  : option cv_Rect :=
  match worldToImage (min_corner box) scale image_size,
        worldToImage (max_corner box) scale image_size with
  | Some top_left, Some bottom_right => cv_Rect_of_points top_left bottom_right
  | _, _ => None
  end.

(** The constants of [visualizeWithOpenCV]. *)
Definition IMAGE_SIZE : Z := 600.
Definition SCALE : float := 80.0.

(** [cv::Point box_center(box_rect.x + box_rect.width / 2,
    box_rect.y + box_rect.height / 2)]; [/] on [int] truncates. *)
Definition box_center (box_rect : cv_Rect) : option cv_Point :=
  match int_add (rect_x box_rect) (Z.quot (rect_width box_rect) 2),
        int_add (rect_y box_rect) (Z.quot (rect_height box_rect) 2) with
  | Some cx, Some cy => Some (mk_cv_Point cx cy)
  | _, _ => None
  end.


(** The loop that reports unlabeled points ([main], lines 213-225; the
    same loop draws them in [visualizeWithOpenCV], lines 140-153): a point
    of the input is reported when no placed label's point [bg::equals] it.
    [bg::equals] on two points is Boost's coordinate comparison, taken as
    a parameter [equals]. *)
Definition has_label (equals : point_t -> point_t -> bool)
    (results : list labeled_point) (p : point_t) : bool :=
  existsb (fun lp => equals (point lp) p) results.

Definition unlabeled_points (equals : point_t -> point_t -> bool)
    (points : list (point_t * string)) (results : list labeled_point)
    : list (point_t * string) :=
  filter (fun point_pair => negb (has_label equals results (fst point_pair))) points.

End Image.

(** * Binary64 addition of a positive number

    The facts on C++ [double] arithmetic that the box corners need, proved
    from the IEEE-754 specification of the primitive floats ([Prim2SF],
    [SFadd], [binary_round]): adding a positive finite number never yields
    a smaller number, whatever the rounding. *)

Module Binary64.
Local Open Scope Z_scope.

Lemma digits2_pos_bounds p :
  2 ^ (Z.pos (digits2_pos p) - 1) <= Z.pos p < 2 ^ Z.pos (digits2_pos p).
Proof.
  induction p as [p IH|p IH|]; [| |simpl; lia];
    simpl digits2_pos; rewrite Pos2Z.inj_succ;
    set (D := Z.pos (digits2_pos p)) in *;
    assert (HD1 : 1 <= D) by (unfold D; lia);
    assert (HD : 2 ^ D = 2 * 2 ^ (D - 1))
      by (rewrite <- Z.pow_succ_r by lia; f_equal; lia);
    replace (Z.succ D - 1) with D by lia;
    rewrite Z.pow_succ_r by lia;
    rewrite ?(Pos2Z.inj_xI p), ?(Pos2Z.inj_xO p); lia.
Qed.

Lemma fexp_eq x : SpecFloat.fexp prec emax x = Z.max (x - 53) (-1074).
Proof. reflexivity. Qed.

Lemma valid_finite s m e :
  valid_binary (S754_finite s m e) = true ->
  -1074 <= e <= 971 /\ Z.pos m < 2 ^ 53 /\ (e = -1074 \/ 2 ^ 52 <= Z.pos m).
Proof.
  unfold valid_binary, SpecFloat.valid_binary, bounded, canonical_mantissa.
  rewrite fexp_eq, Bool.andb_true_iff, Z.eqb_eq, Z.leb_le. intros [Hc He].
  change (emax - prec) with 971 in He.
  pose proof (digits2_pos_bounds m) as [Hlo Hhi].
  set (d := Z.pos (digits2_pos m)) in *.
  assert (Hd : d <= 53 /\ (e = -1074 \/ d = 53)) by lia.
  split; [lia|]. split.
  - eapply Z.lt_le_trans; [exact Hhi|]. apply Z.pow_le_mono_r; lia.
  - destruct Hd as [_ [He'|He']]; [left; exact He'|right].
    rewrite He' in Hlo. exact Hlo.
Qed.

Lemma pow2_pos k : 0 <= k -> 0 < 2 ^ k.
Proof. intros; apply Z.pow_pos_nonneg; lia. Qed.

Lemma lt_scaled m1 e1 m2 e2 :
  -1074 <= e1 -> e1 < e2 -> Z.pos m1 < 2 ^ 53 -> 2 ^ 52 <= Z.pos m2 ->
  Z.pos m1 * 2 ^ (e1 + 1074) < Z.pos m2 * 2 ^ (e2 + 1074).
Proof.
  intros He1 He Hm1 Hm2.
  replace (e2 + 1074) with ((e2 - e1 - 1) + 1 + (e1 + 1074)) by lia.
  rewrite (Z.pow_add_r 2 (e2 - e1 - 1 + 1) (e1 + 1074)) by lia.
  rewrite (Z.pow_add_r 2 (e2 - e1 - 1) 1) by lia.
  pose proof (pow2_pos (e1 + 1074) ltac:(lia)) as HP.
  assert (HQ : 0 < 2 ^ (e2 - e1 - 1)) by (apply pow2_pos; lia).
  set (P := 2 ^ (e1 + 1074)) in *. set (Q := 2 ^ (e2 - e1 - 1)) in *.
  change (2 ^ 53) with (2 * 2 ^ 52) in Hm1. change (2 ^ 1) with 2.
  set (K := 2 ^ 52) in *.
  assert (Z.pos m2 * Q >= K) by nia.
  nia.
Qed.

Lemma magnitude_compare s1 m1 e1 s2 m2 e2 :
  valid_binary (S754_finite s1 m1 e1) = true ->
  valid_binary (S754_finite s2 m2 e2) = true ->
  match Z.compare e1 e2 with Lt => Lt | Gt => Gt | Eq => Pos.compare_cont Eq m1 m2 end =
  Z.compare (Z.pos m1 * 2 ^ (e1 + 1074)) (Z.pos m2 * 2 ^ (e2 + 1074)).
Proof.
  intros H1 H2.
  destruct (valid_finite _ _ _ H1) as [Hr1 [Hm1 Hc1]].
  destruct (valid_finite _ _ _ H2) as [Hr2 [Hm2 Hc2]].
  destruct (Z.compare_spec e1 e2) as [<-|Hlt|Hgt].
  - change (Pos.compare_cont Eq m1 m2) with (Pos.compare m1 m2).
    pose proof (pow2_pos (e1 + 1074) ltac:(lia)).
    destruct (Pos.compare_spec m1 m2) as [->|Hl|Hg]; symmetry.
    + apply Z.compare_eq_iff; reflexivity.
    + apply Z.compare_lt_iff. nia.
    + apply Z.compare_gt_iff. nia.
  - symmetry. apply Z.compare_lt_iff. apply lt_scaled; try lia.
  - symmetry. apply Z.compare_gt_iff. apply lt_scaled; try lia.
Qed.

Lemma compare_finite s1 m1 e1 s2 m2 e2 :
  valid_binary (S754_finite s1 m1 e1) = true ->
  valid_binary (S754_finite s2 m2 e2) = true ->
  SFcompare (S754_finite s1 m1 e1) (S754_finite s2 m2 e2) =
  Some (Z.compare (sval (S754_finite s1 m1 e1)) (sval (S754_finite s2 m2 e2))).
Proof.
  intros H1 H2. pose proof (magnitude_compare _ _ _ _ _ _ H1 H2) as Hm.
  destruct (valid_finite _ _ _ H1) as [Hr1 _].
  destruct (valid_finite _ _ _ H2) as [Hr2 _].
  pose proof (pow2_pos (e1 + 1074) ltac:(lia)).
  pose proof (pow2_pos (e2 + 1074) ltac:(lia)).
  destruct s1, s2; simpl SFcompare; unfold sval, cond_Zopp; f_equal.
  - rewrite Z.compare_opp, (Z.compare_antisym (Z.pos m1 * 2 ^ (e1 + 1074)) (Z.pos m2 * 2 ^ (e2 + 1074))), <- Hm.
    destruct (e1 ?= e2); reflexivity.
  - symmetry. apply Z.compare_lt_iff. nia.
  - symmetry. apply Z.compare_gt_iff. nia.
  - exact Hm.
Qed.

(** Two valid numbers that compare equal are the same number. *)
Lemma compare_eq_finite s1 m1 e1 s2 m2 e2 :
  SFcompare (S754_finite s1 m1 e1) (S754_finite s2 m2 e2) = Some Eq ->
  S754_finite s1 m1 e1 = S754_finite s2 m2 e2.
Proof.
  simpl. destruct s1, s2; try discriminate;
    destruct (Z.compare_spec e1 e2) as [<-|_|_]; try discriminate; intros H;
    injection H as H; [apply CompOpp_iff in H|];
    change (Pos.compare_cont Eq m1 m2) with (Pos.compare m1 m2) in H;
    apply Pos.compare_eq_iff in H; subst; reflexivity.
Qed.

Lemma digits2_pos_unique p D :
  2 ^ (D - 1) <= Z.pos p < 2 ^ D -> Z.pos (digits2_pos p) = D.
Proof.
  intros [Hlo Hhi]. pose proof (digits2_pos_bounds p) as [Hlo' Hhi'].
  set (d := Z.pos (digits2_pos p)) in *.
  assert (Hd : 1 <= d) by (unfold d; lia).
  assert (HD : 1 <= D).
  { destruct (Z.le_gt_cases 1 D) as [H|H]; [exact H|].
    assert (2 ^ D <= 1).
    { destruct (Z.lt_ge_cases D 0) as [H'|H'].
      - rewrite Z.pow_neg_r by exact H'. lia.
      - replace D with 0 by lia. reflexivity. }
    lia. }
  destruct (Z.lt_trichotomy d D) as [Hlt|[Heq|Hgt]]; [|exact Heq|].
  - assert (2 ^ d <= 2 ^ (D - 1)) by (apply Z.pow_le_mono_r; lia). lia.
  - assert (2 ^ D <= 2 ^ (d - 1)) by (apply Z.pow_le_mono_r; lia). lia.
Qed.

Lemma iter_xO m d : Z.pos (Pos.iter xO m d) = Z.pos m * 2 ^ Z.pos d.
Proof.
  induction d as [|d IH] using Pos.peano_ind.
  - simpl. lia.
  - rewrite Pos.iter_succ, Pos2Z.inj_xO, IH, Pos2Z.inj_succ, Z.pow_succ_r by lia. lia.
Qed.

Lemma shl_align_lt m e e' :
  e' < e -> shl_align m e e' = (Pos.iter xO m (Z.to_pos (e - e')), e').
Proof.
  intros H. unfold shl_align.
  destruct (e' - e) eqn:Hd; try lia.
  replace (e - e') with (Z.pos p) by lia. reflexivity.
Qed.

Lemma shl_align_ge m e e' : e <= e' -> shl_align m e e' = (m, e).
Proof.
  intros H. unfold shl_align. destruct (e' - e) eqn:Hd; try reflexivity. lia.
Qed.

Lemma shr_1_m mrs : 0 <= shr_m mrs ->
  shr_m (shr_1 mrs) = shr_m mrs / 2 /\ 0 <= shr_m (shr_1 mrs).
Proof.
  destruct mrs as [m r s]. simpl. intros Hm.
  destruct m as [|p|p]; [vm_compute; split; [reflexivity | discriminate] | |lia].
  destruct p as [p|p|]; simpl; split; try lia.
  - apply Z.div_unique_pos with 1; lia.
  - apply Z.div_unique_pos with 0; lia.
  - reflexivity.
Qed.

Lemma iter_shr_1 n : forall mrs, 0 <= shr_m mrs ->
  shr_m (SpecFloat.iter_pos shr_1 n mrs) = shr_m mrs / 2 ^ Z.pos n /\
  0 <= shr_m (SpecFloat.iter_pos shr_1 n mrs).
Proof.
  induction n as [n IH|n IH|]; intros mrs Hm; simpl SpecFloat.iter_pos.
  - destruct (shr_1_m mrs Hm) as [H1 H1'].
    destruct (IH _ H1') as [H2 H2']. destruct (IH _ H2') as [H3 H3'].
    split; [|exact H3'].
    rewrite H3, H2, H1, !Z.div_div by (try apply pow2_pos; lia).
    f_equal. replace (Z.pos n~1) with (1 + Z.pos n + Z.pos n) by lia.
    rewrite !Z.pow_add_r by lia. lia.
  - destruct (IH _ Hm) as [H2 H2']. destruct (IH _ H2') as [H3 H3'].
    split; [|exact H3'].
    rewrite H3, H2, Z.div_div by (try apply pow2_pos; lia).
    f_equal. replace (Z.pos n~0) with (Z.pos n + Z.pos n) by lia.
    rewrite !Z.pow_add_r by lia. lia.
  - exact (shr_1_m mrs Hm).
Qed.

Lemma shr_spec mrs e n : 0 <= n -> 0 <= shr_m mrs ->
  shr_m (fst (shr mrs e n)) = shr_m mrs / 2 ^ n /\ snd (shr mrs e n) = e + n.
Proof.
  intros Hn Hm. unfold shr. destruct n as [|p|p]; simpl fst; simpl snd.
  - rewrite Z.div_1_r. split; lia.
  - split; [apply iter_shr_1, Hm | reflexivity].
  - lia.
Qed.

Lemma shr_nonpos mrs e n : n <= 0 -> shr mrs e n = (mrs, e).
Proof. intros Hn. unfold shr. destruct n; [reflexivity | lia | reflexivity]. Qed.

Lemma round_nearest_even_cases q l :
  round_nearest_even q l = q \/ round_nearest_even q l = q + 1.
Proof.
  destruct l as [|[| |]]; simpl; auto.
  destruct (Z.even q); auto.
Qed.

Lemma shr_fexp_eq m e l :
  shr_fexp prec emax m e l =
  shr (shr_record_of_loc m l) e (Z.max (Zdigits2 m + e - 53) (-1074) - e).
Proof. unfold shr_fexp. rewrite fexp_eq. reflexivity. Qed.

Lemma shr_record_of_loc_m m l : shr_m (shr_record_of_loc m l) = m.
Proof. destruct l as [|[| |]]; reflexivity. Qed.

Lemma shl_align_val m e e' :
  e' <= e -> Z.pos (fst (shl_align m e e')) = Z.pos m * 2 ^ (e - e').
Proof.
  intros H. destruct (Z.eq_dec e e') as [<-|Hne].
  - rewrite shl_align_ge by lia. rewrite Z.sub_diag. simpl. lia.
  - rewrite shl_align_lt by lia. simpl fst. rewrite iter_xO, Z2Pos.id by lia.
    reflexivity.
Qed.

(** The rounding step: the exact value [T] lies in [q*g, (q+1)*g) on the grid
    of the target exponent [E], and the result is [q*g] or [(q+1)*g]. *)
Lemma binary_round_spec sx mx ex : -1074 <= ex ->
  exists E q m2 e2,
    -1074 <= E /\ 1 <= q < 2 ^ 53 /\ (E = -1074 \/ 2 ^ 52 <= q) /\
    q * 2 ^ (E + 1074) <= Z.pos mx * 2 ^ (ex + 1074) < (q + 1) * 2 ^ (E + 1074) /\
    (Z.pos m2 * 2 ^ (e2 + 1074) = q * 2 ^ (E + 1074) \/
     Z.pos m2 * 2 ^ (e2 + 1074) = (q + 1) * 2 ^ (E + 1074)) /\
    -1074 <= e2 /\ Z.pos m2 < 2 ^ 53 /\ (e2 = -1074 \/ 2 ^ 52 <= Z.pos m2) /\
    binary_round prec emax sx mx ex =
      if e2 <=? 971 then S754_finite sx m2 e2 else S754_infinity sx.
Proof.
  intros Hex. unfold binary_round. rewrite fexp_eq.
  set (E := Z.max (Z.pos (digits2_pos mx) + ex - 53) (-1074)).
  (* after alignment: mantissa mz at exponent ez <= E, same value, same E *)
  assert (Hal : exists mz ez, shl_align mx ex E = (mz, ez) /\ -1074 <= ez <= E /\
            Z.pos mz * 2 ^ (ez + 1074) = Z.pos mx * 2 ^ (ex + 1074) /\
            E = Z.max (Z.pos (digits2_pos mz) + ez - 53) (-1074)).
  { destruct (Z.le_gt_cases ex E) as [Hle|Hgt].
    - exists mx, ex. rewrite shl_align_ge by exact Hle. repeat split; lia.
    - exists (Pos.iter xO mx (Z.to_pos (ex - E))), E.
      rewrite shl_align_lt by exact Hgt. split; [reflexivity|].
      rewrite iter_xO, Z2Pos.id by lia.
      split; [lia|]. split.
      + rewrite <- Z.mul_assoc, <- Z.pow_add_r by lia. f_equal. f_equal. lia.
      + pose proof (digits2_pos_bounds mx) as [Hlo Hhi].
        assert (HD : Z.pos (digits2_pos (Pos.iter xO mx (Z.to_pos (ex - E)))) =
                     Z.pos (digits2_pos mx) + (ex - E)).
        { apply digits2_pos_unique. rewrite iter_xO, Z2Pos.id by lia.
          replace (Z.pos (digits2_pos mx) + (ex - E) - 1)
            with ((Z.pos (digits2_pos mx) - 1) + (ex - E)) by lia.
          rewrite !Z.pow_add_r by lia.
          pose proof (pow2_pos (ex - E) ltac:(lia)). nia. }
        rewrite HD. unfold E at 2. lia. }
  destruct Hal as [mz [ez [Hsh [Hez [Hval HE]]]]]. rewrite Hsh.
  unfold binary_round_aux.
  rewrite shr_fexp_eq. change (Zdigits2 (Z.pos mz)) with (Z.pos (digits2_pos mz)).
  rewrite <- HE.
  destruct (shr_spec (shr_record_of_loc (Z.pos mz) loc_Exact) ez (E - ez))
    as [Hq He']; [lia | rewrite shr_record_of_loc_m; lia |].
  destruct (shr (shr_record_of_loc (Z.pos mz) loc_Exact) ez (E - ez)) as [mrs' e'].
  simpl fst in Hq. simpl snd in He'. rewrite shr_record_of_loc_m in Hq.
  replace e' with E by lia. clear He'.
  set (q := shr_m mrs') in *.
  pose proof (digits2_pos_bounds mz) as [Hlo Hhi].
  pose proof (pow2_pos (E - ez) ltac:(lia)) as Hk.
  assert (Hg : 2 ^ (E + 1074) = 2 ^ (E - ez) * 2 ^ (ez + 1074))
    by (rewrite <- Z.pow_add_r by lia; f_equal; lia).
  pose proof (pow2_pos (ez + 1074) ltac:(lia)) as Hg0.
  assert (Hdiv : 2 ^ (E - ez) * q <= Z.pos mz < 2 ^ (E - ez) * (q + 1)).
  { rewrite Hq. pose proof (Z.mul_div_le (Z.pos mz) (2 ^ (E - ez)) Hk).
    pose proof (Z.mod_pos_bound (Z.pos mz) (2 ^ (E - ez)) Hk).
    pose proof (Z.div_mod (Z.pos mz) (2 ^ (E - ez)) ltac:(lia)). lia. }
  assert (Hqhi : q < 2 ^ 53).
  { assert (2 ^ Z.pos (digits2_pos mz) <= 2 ^ (E - ez) * 2 ^ 53).
    { rewrite <- Z.pow_add_r by lia. apply Z.pow_le_mono_r; lia. }
    nia. }
  assert (Hqlo : E = -1074 \/ 2 ^ 52 <= q).
  { destruct (Z.eq_dec E (-1074)) as [H|H]; [left; exact H|right].
    assert (2 ^ (E - ez) * 2 ^ 52 <= 2 ^ (Z.pos (digits2_pos mz) - 1)).
    { rewrite <- Z.pow_add_r by lia. apply Z.pow_le_mono_r; lia. }
    nia. }
  assert (Hq1 : 1 <= q).
  { destruct Hqlo as [H|H]; [|lia].
    assert (H0 : E - ez = 0) by lia. rewrite H0 in Hdiv.
    change (2 ^ 0) with 1 in Hdiv. lia. }
  (* second normalisation *)
  set (m1 := round_nearest_even q (loc_of_shr_record mrs')).
  assert (Hm1 : m1 = q \/ m1 = q + 1) by apply round_nearest_even_cases.
  rewrite shr_fexp_eq.
  destruct (Z.eq_dec m1 (2 ^ 53)) as [Htop|Htop].
  - (* carry into the next binade *)
    assert (Hd : Zdigits2 m1 = 54).
    { rewrite Htop. reflexivity. }
    rewrite Hd. replace (Z.max (54 + E - 53) (-1074) - E) with 1 by lia.
    destruct (shr_spec (shr_record_of_loc m1 loc_Exact) E 1) as [H2 H2'];
      [lia | rewrite shr_record_of_loc_m; lia |].
    destruct (shr (shr_record_of_loc m1 loc_Exact) E 1) as [mrs'' e''].
    simpl fst in H2. simpl snd in H2'. rewrite shr_record_of_loc_m, Htop in H2.
    change (2 ^ 53 / 2 ^ 1) with (Z.pos (2 ^ 52)%positive) in H2. rewrite H2, H2'.
    change (emax - prec) with 971.
    exists E, q, (2 ^ 52)%positive, (E + 1).
    change (Z.pos (2 ^ 52)%positive) with (2 ^ 52).
    split; [lia|]. split; [lia|]. split; [exact Hqlo|]. split; [nia|].
    split; [right|].
    { assert (q + 1 = 2 ^ 53) by lia. rewrite H.
      replace (E + 1 + 1074) with (1 + (E + 1074)) by lia.
      rewrite Z.pow_add_r by lia. rewrite Z.mul_assoc. reflexivity. }
    split; [lia|]. split; [reflexivity|]. split; [right; reflexivity|]. reflexivity.
  - assert (Hm1' : 1 <= m1 < 2 ^ 53) by lia.
    destruct m1 as [|p|p] eqn:Hp; try lia.
    pose proof (digits2_pos_bounds p) as [Hlo' Hhi'].
    assert (Hd : Z.pos (digits2_pos p) <= 53).
    { destruct (Z.le_gt_cases (Z.pos (digits2_pos p)) 53) as [H|H]; [exact H|].
      assert (2 ^ 53 <= 2 ^ (Z.pos (digits2_pos p) - 1)) by (apply Z.pow_le_mono_r; lia).
      lia. }
    change (Zdigits2 (Z.pos p)) with (Z.pos (digits2_pos p)).
    rewrite shr_nonpos by lia. simpl shr_m. change (emax - prec) with 971.
    exists E, q, p, E.
    split; [lia|]. split; [lia|]. split; [exact Hqlo|]. split; [nia|].
    split; [destruct Hm1 as [H|H]; [left|right]; rewrite H; reflexivity|].
    split; [lia|]. split; [lia|]. split; [lia|]. reflexivity.
Qed.

(** A representable value not above the exact sum is not above its rounding
    point below. *)
Lemma grid_below my ey E q T :
  -1074 <= ey -> Z.pos my < 2 ^ 53 -> -1074 <= E -> (E = -1074 \/ 2 ^ 52 <= q) ->
  T < (q + 1) * 2 ^ (E + 1074) ->
  Z.pos my * 2 ^ (ey + 1074) <= T -> Z.pos my * 2 ^ (ey + 1074) <= q * 2 ^ (E + 1074).
Proof.
  intros Hey Hmy HE Hq Hhi HY.
  pose proof (pow2_pos (E + 1074) ltac:(lia)) as Hg.
  destruct (Z.le_gt_cases E ey) as [Hle|Hgt].
  - assert (Hs : 2 ^ (ey + 1074) = 2 ^ (ey - E) * 2 ^ (E + 1074))
      by (rewrite <- Z.pow_add_r by lia; f_equal; lia).
    pose proof (pow2_pos (ey - E) ltac:(lia)).
    rewrite Hs in *. set (a := Z.pos my * 2 ^ (ey - E)).
    assert (a < q + 1) by (unfold a in *; nia).
    unfold a in *; nia.
  - destruct Hq as [Hq|Hq]; [lia|].
    assert (Hs : 2 ^ (E + 1074) = 2 * 2 ^ (E - ey - 1) * 2 ^ (ey + 1074)).
    { rewrite <- Z.pow_succ_r, <- Z.pow_add_r by lia. f_equal. lia. }
    pose proof (pow2_pos (E - ey - 1) ltac:(lia)).
    pose proof (pow2_pos (ey + 1074) ltac:(lia)).
    change (2 ^ 53) with (2 * 2 ^ 52) in Hmy.
    rewrite Hs. nia.
Qed.

(** A representable value strictly above the exact value is not below its
    rounding point above. *)
Lemma grid_above my ey E q T :
  -1074 <= ey -> Z.pos my < 2 ^ 53 -> -1074 <= E -> (E = -1074 \/ 2 ^ 52 <= q) ->
  q * 2 ^ (E + 1074) <= T ->
  T < Z.pos my * 2 ^ (ey + 1074) -> (q + 1) * 2 ^ (E + 1074) <= Z.pos my * 2 ^ (ey + 1074).
Proof.
  intros Hey Hmy HE Hq Hlo HY.
  pose proof (pow2_pos (E + 1074) ltac:(lia)) as Hg.
  destruct (Z.le_gt_cases E ey) as [Hle|Hgt].
  - assert (Hs : 2 ^ (ey + 1074) = 2 ^ (ey - E) * 2 ^ (E + 1074))
      by (rewrite <- Z.pow_add_r by lia; f_equal; lia).
    pose proof (pow2_pos (ey - E) ltac:(lia)).
    rewrite Hs in *. set (a := Z.pos my * 2 ^ (ey - E)).
    assert (q < a) by (unfold a in *; nia).
    unfold a in *; nia.
  - destruct Hq as [Hq|Hq]; [lia|].
    assert (Hs : 2 ^ (E + 1074) = 2 * 2 ^ (E - ey - 1) * 2 ^ (ey + 1074)).
    { rewrite <- Z.pow_succ_r, <- Z.pow_add_r by lia. f_equal. lia. }
    pose proof (pow2_pos (E - ey - 1) ltac:(lia)).
    pose proof (pow2_pos (ey + 1074) ltac:(lia)).
    change (2 ^ 53) with (2 * 2 ^ 52) in Hmy.
    rewrite Hs in Hlo. nia.
Qed.

Lemma pow2_mono a b : 0 <= a <= b -> 2 ^ a <= 2 ^ b.
Proof. intros H. apply Z.pow_le_mono_r; lia. Qed.

(** Adding a positive finite number never makes a binary64 number smaller. *)
Lemma SFadd_pos_not_lt X mw ew :
  valid_binary X = true -> valid_binary (S754_finite false mw ew) = true ->
  valid_binary (SFadd prec emax X (S754_finite false mw ew)) = true ->
  SFltb (SFadd prec emax X (S754_finite false mw ew)) X = false.
Proof.
  intros HX HW.
  destruct X as [sx|sx| |sx mx ex]; [destruct sx; reflexivity.. | reflexivity |].
  destruct (valid_finite _ _ _ HX) as [Hex [Hmx Hcx]].
  destruct (valid_finite _ _ _ HW) as [Hew [Hmw Hcw]].
  set (ez := Z.min ex ew).
  change (SFadd prec emax (S754_finite _ mx ex) (S754_finite false mw ew)) with
      (binary_normalize prec emax
        (cond_Zopp sx (Z.pos (fst (shl_align mx ex ez))) +
         cond_Zopp false (Z.pos (fst (shl_align mw ew ez)))) ez false).
  rewrite !shl_align_val by lia.
  pose proof (pow2_pos (ex - ez) ltac:(lia)).
  pose proof (pow2_pos (ew - ez) ltac:(lia)).
  pose proof (pow2_pos (ez + 1074) ltac:(lia)).
  assert (HY : Z.pos mx * 2 ^ (ex - ez) * 2 ^ (ez + 1074) = Z.pos mx * 2 ^ (ex + 1074))
       by (rewrite <- Z.mul_assoc, <- Z.pow_add_r by lia; f_equal; f_equal; lia).
  set (A := Z.pos mx * 2 ^ (ex - ez)) in *.
  set (B := Z.pos mw * 2 ^ (ew - ez)) in *.
  assert (HA : 0 < A) by (unfold A; nia).
  assert (HB : 0 < B) by (unfold B; nia).
  destruct sx; simpl cond_Zopp.
  - (* negative X *)
    destruct (- A + B) as [|m|m] eqn:HM; intros HR.
    + reflexivity.
    + unfold binary_normalize in *.
      destruct (binary_round_spec false m ez ltac:(lia))
        as [E [q [m2 [e2 [HE [Hq [Hq52 [HT [HV [He2 [Hm2 [Hc2 Hr]]]]]]]]]]]].
      rewrite Hr. destruct (e2 <=? 971); reflexivity.
    + unfold binary_normalize in *.
      destruct (binary_round_spec true m ez ltac:(lia))
        as [E [q [m2 [e2 [HE [Hq [Hq52 [HT [HV [He2 [Hm2 [Hc2 Hr]]]]]]]]]]]].
      rewrite Hr in *.
      assert (Hm : Z.pos m = A - B) by lia.
      assert (HTY : Z.pos m * 2 ^ (ez + 1074) < Z.pos mx * 2 ^ (ex + 1074))
        by (rewrite <- HY, Hm; nia).
      pose proof (grid_above mx ex E q (Z.pos m * 2 ^ (ez + 1074))
                    ltac:(lia) Hmx HE Hq52 (proj1 HT) HTY) as Hup.
      assert (HVY : Z.pos m2 * 2 ^ (e2 + 1074) <= Z.pos mx * 2 ^ (ex + 1074)).
      { pose proof (pow2_pos (E + 1074) ltac:(lia)). destruct HV as [HV|HV]; nia. }
      destruct (e2 <=? 971) eqn:Hle.
      * unfold SFltb. rewrite compare_finite by assumption.
        unfold sval, cond_Zopp.
        destruct (Z.compare_spec (- (Z.pos m2 * 2 ^ (e2 + 1074)))
                    (- (Z.pos mx * 2 ^ (ex + 1074)))); [reflexivity|lia|reflexivity].
      * exfalso. apply Z.leb_gt in Hle.
        destruct Hc2 as [Hc2|Hc2]; [lia|].
        assert (Hs : 2 ^ (e2 + 1074) = 2 * 2 ^ (e2 - ex - 1) * 2 ^ (ex + 1074)).
        { rewrite <- Z.pow_succ_r, <- Z.pow_add_r by lia. f_equal. lia. }
        pose proof (pow2_pos (e2 - ex - 1) ltac:(lia)).
        pose proof (pow2_pos (ex + 1074) ltac:(lia)).
        change (2 ^ 53) with (2 * 2 ^ 52) in Hmx.
        rewrite Hs in HVY. nia.
  - (* positive X *)
    destruct (A + B) as [|m|m] eqn:HM; intros HR; [lia| |lia].
    unfold binary_normalize in *.
    destruct (binary_round_spec false m ez ltac:(lia))
      as [E [q [m2 [e2 [HE [Hq [Hq52 [HT [HV [He2 [Hm2 [Hc2 Hr]]]]]]]]]]]].
    rewrite Hr in *.
    assert (HTY : Z.pos mx * 2 ^ (ex + 1074) <= Z.pos m * 2 ^ (ez + 1074))
      by (rewrite <- HY; nia).
    pose proof (grid_below mx ex E q (Z.pos m * 2 ^ (ez + 1074))
                  ltac:(lia) Hmx HE Hq52 (proj2 HT) HTY) as Hdown.
    assert (HVY : Z.pos mx * 2 ^ (ex + 1074) <= Z.pos m2 * 2 ^ (e2 + 1074)).
    { pose proof (pow2_pos (E + 1074) ltac:(lia)). destruct HV as [HV|HV]; nia. }
    destruct (e2 <=? 971) eqn:Hle; [|reflexivity].
    unfold SFltb. rewrite compare_finite by assumption.
    unfold sval, cond_Zopp.
    destruct (Z.compare_spec (Z.pos m2 * 2 ^ (e2 + 1074)) (Z.pos mx * 2 ^ (ex + 1074)));
      [reflexivity|lia|reflexivity].
Qed.

Lemma add_pos_not_lt x w mw ew :
  Prim2SF w = S754_finite false mw ew -> (x + w <? x)%float = false.
Proof.
  intros Hw. rewrite ltb_spec, add_spec, Hw. apply SFadd_pos_not_lt.
  - apply Prim2SF_valid.
  - rewrite <- Hw. apply Prim2SF_valid.
  - rewrite <- Hw. change (SFadd prec emax) with SF64add. rewrite <- add_spec.
    apply Prim2SF_valid.
Qed.

(** The form used below: [w] a positive finite float. *)
Lemma add_not_lt x w :
  match Prim2SF w with S754_finite false _ _ => True | _ => False end ->
  (x + w <? x)%float = false.
Proof.
  destruct (Prim2SF w) as [s|s| |[|] mw ew] eqn:Hw; try contradiction.
  intros _. exact (add_pos_not_lt x w mw ew Hw).
Qed.

End Binary64.

(** * Binary64 multiplication

    [SFmul] of two finite or zero numbers is the exact product rounded by
    [srnd], or an infinity when that rounding is at least [2^972]. *)

Module Binary64_mul.
Import Binary64 Rounding.
Local Open Scope Z_scope.
Local Open Scope bool_scope.
Local Open Scope Z_scope.

Lemma shr_1_eq m r s : 0 <= m ->
  shr_1 (Build_shr_record m r s) = Build_shr_record (m / 2) (Z.odd m) (r || s).
Proof.
  intros Hm. destruct m as [|p|p]; [reflexivity| |lia].
  destruct p as [p|p|]; simpl.
  - f_equal. apply Z.div_unique_pos with 1; lia.
  - f_equal. apply Z.div_unique_pos with 0; lia.
  - reflexivity.
Qed.

Lemma shr_1_inv M k mrs : 0 <= M -> 0 <= k -> shr_inv M k mrs -> shr_inv M (k + 1) (shr_1 mrs).
Proof.
  intros HM Hk [Hm [Hr Hs]]. destruct mrs as [m r s]. simpl in Hm, Hr, Hs.
  pose proof (pow2_pos k Hk) as Hp.
  rewrite shr_1_eq by (rewrite Hm; apply Z.div_pos; lia). unfold shr_inv. simpl.
  assert (Hpk : 2 ^ (k + 1) = 2 ^ k * 2) by (rewrite Z.pow_add_r by lia; reflexivity).
  replace (k + 1 - 1) with k by lia.
  rewrite Hpk, Hm, Z.div_div by lia.
  split; [reflexivity|].
  rewrite Z.rem_mul_r by lia.
  assert (Hb := Z.mod_pos_bound (M / 2 ^ k) 2 ltac:(lia)).
  assert (Hrem := Z.mod_pos_bound M (2 ^ k) Hp).
  split.
  - replace (0 <? k + 1) with true by (symmetry; apply Z.ltb_lt; lia). simpl.
    rewrite Zmod_odd. destruct (Z.odd (M / 2 ^ k)); symmetry.
    + apply Z.leb_le. lia.
    + apply Z.leb_gt. lia.
  - replace (0 <? k + 1) with true by (symmetry; apply Z.ltb_lt; lia). simpl.
    rewrite Hr, Hs.
    destruct (Z.eq_dec k 0) as [->|Hk0].
    + change (2 ^ 0) with 1. rewrite Z.mod_1_r. reflexivity.
    + replace (0 <? k) with true by (symmetry; apply Z.ltb_lt; lia). simpl.
      pose proof (pow2_pos (k - 1) ltac:(lia)) as Hp1.
      assert (Hk2 : 2 ^ k = 2 ^ (k - 1) * 2)
        by (rewrite Z.mul_comm, <- Z.pow_succ_r by lia; f_equal; lia).
      rewrite Hk2, (Z.rem_mul_r M (2 ^ (k - 1)) 2) by lia.
      assert (Hb' := Z.mod_pos_bound (M / 2 ^ (k - 1)) 2 ltac:(lia)).
      assert (Hrem' := Z.mod_pos_bound M (2 ^ (k - 1)) Hp1).
      set (h := 2 ^ (k - 1)) in *. set (b := (M / h) mod 2) in *.
      set (c := M mod h) in *.
      assert (Hb01 : b = 0 \/ b = 1) by lia.
      destruct Hb01 as [Hb0|Hb0]; rewrite Hb0;
      repeat match goal with
      | |- context [?x <=? ?y] => destruct (Z.leb_spec x y)
      | |- context [?x =? ?y] => destruct (Z.eqb_spec x y)
      end; simpl; try reflexivity; exfalso; lia.
Qed.

Lemma iter_shr_inv M n : forall k mrs, 0 <= M -> 0 <= k -> shr_inv M k mrs ->
  shr_inv M (k + Z.pos n) (SpecFloat.iter_pos shr_1 n mrs).
Proof.
  induction n as [n IH|n IH|]; intros k mrs HM Hk H; simpl SpecFloat.iter_pos.
  - replace (k + Z.pos n~1) with (k + 1 + Z.pos n + Z.pos n) by lia.
    apply IH; [lia|lia|]. apply IH; [lia|lia|]. apply shr_1_inv; assumption.
  - replace (k + Z.pos n~0) with (k + Z.pos n + Z.pos n) by lia.
    apply IH; [lia|lia|]. apply IH; assumption.
  - apply shr_1_inv; assumption.
Qed.

Lemma shr_exact_inv M e n : 0 <= M -> 0 <= n ->
  shr_inv M n (fst (shr (shr_record_of_loc M loc_Exact) e n)) /\
  snd (shr (shr_record_of_loc M loc_Exact) e n) = e + n.
Proof.
  intros HM Hn. destruct n as [|p|p]; [| |lia]; simpl fst; simpl snd.
  - split; [|lia]. unfold shr_inv. simpl. rewrite Z.div_1_r. auto.
  - split; [|reflexivity]. change (Z.pos p) with (0 + Z.pos p).
    apply iter_shr_inv; [exact HM|lia|].
    unfold shr_inv. simpl. rewrite Z.div_1_r. auto.
Qed.

Lemma round_loc M k mrs : 0 <= M -> 0 <= k -> shr_inv M k mrs ->
  round_nearest_even (shr_m mrs) (loc_of_shr_record mrs) =
  shr_m mrs + (if round_up (shr_m mrs) (M mod 2 ^ k) (2 ^ k) then 1 else 0).
Proof.
  intros HM Hk [Hm [Hr Hs]]. destruct mrs as [m r s]. simpl in Hm, Hr, Hs |- *.
  clear Hm. unfold round_up.
  destruct (Z.eq_dec k 0) as [->|Hk0].
  - simpl in Hr, Hs. subst r s. simpl. change (2 ^ 0) with 1. rewrite Z.mod_1_r.
    simpl. lia.
  - replace (0 <? k) with true in Hr, Hs by (symmetry; apply Z.ltb_lt; lia).
    simpl in Hr, Hs.
    pose proof (pow2_pos (k - 1) ltac:(lia)) as Hp1.
    assert (Hk2 : 2 ^ k = 2 ^ (k - 1) * 2)
      by (rewrite Z.mul_comm, <- Z.pow_succ_r by lia; f_equal; lia).
    rewrite Hk2, (Z.rem_mul_r M (2 ^ (k - 1)) 2) in * by lia.
    assert (Hb' := Z.mod_pos_bound (M / 2 ^ (k - 1)) 2 ltac:(lia)).
    assert (Hrem' := Z.mod_pos_bound M (2 ^ (k - 1)) Hp1).
    set (h := 2 ^ (k - 1)) in *. set (b := (M / h) mod 2) in *.
    set (c := M mod h) in *.
    assert (Hb01 : b = 0 \/ b = 1) by lia.
    destruct (Z.leb_spec h (c + h * b)) as [H1|H1] in Hr;
    destruct (Z.eqb_spec c 0) as [H2|H2] in Hs; subst r s;
    cbn [loc_of_shr_record round_nearest_even orb andb];
    change (IntDef.Z.even m) with (Z.even m); rewrite <- ?Z.negb_odd;
    destruct Hb01 as [Hb0|Hb0]; rewrite Hb0 in *; try (exfalso; lia);
    repeat match goal with
    | |- context [?x <? ?y] => destruct (Z.ltb_spec x y)
    | |- context [?x =? ?y] => destruct (Z.eqb_spec x y)
    end; cbn [orb andb]; try lia;
    cbn [negb loc_of_shr_record round_nearest_even];
    change (IntDef.Z.even m) with (Z.even m); rewrite <- ?Z.negb_odd;
    destruct (Z.odd m); cbn [negb]; lia.
Qed.

Lemma digits_log2 p : Z.pos (digits2_pos p) = Z.log2 (Z.pos p) + 1.
Proof.
  apply digits2_pos_unique. pose proof (Z.log2_spec (Z.pos p) ltac:(lia)) as [H1 H2].
  rewrite Z.add_simpl_r. rewrite <- Z.add_1_r in H2. lia.
Qed.

Lemma round_up_scale q rem g c : 0 < c ->
  round_up q (rem * c) (g * c) = round_up q rem g.
Proof.
  intros Hc. unfold round_up.
  destruct (Z.ltb_spec (g * c) (2 * (rem * c))), (Z.ltb_spec g (2 * rem));
    try nia;
  destruct (Z.eqb_spec (2 * (rem * c)) (g * c)), (Z.eqb_spec (2 * rem) g);
    try nia; reflexivity.
Qed.

Lemma second_stage m1 E : -1074 <= E -> 0 <= m1 <= 2 ^ 53 ->
  shr_m (fst (shr_fexp prec emax m1 E loc_Exact)) *
    2 ^ (snd (shr_fexp prec emax m1 E loc_Exact) + 2148) = m1 * 2 ^ (E + 2148) /\
  -1074 <= snd (shr_fexp prec emax m1 E loc_Exact).
Proof.
  intros HE Hm1. rewrite shr_fexp_eq.
  destruct (Z.eq_dec m1 (2 ^ 53)) as [Htop|Htop].
  - assert (Hd : Zdigits2 m1 = 54) by (rewrite Htop; reflexivity).
    rewrite Hd. replace (Z.max (54 + E - 53) (-1074) - E) with 1 by lia.
    destruct (shr_spec (shr_record_of_loc m1 loc_Exact) E 1) as [H2 H2'];
      [lia | rewrite shr_record_of_loc_m; lia |].
    rewrite H2, H2', shr_record_of_loc_m, Htop. split; [|lia].
    replace (E + 1 + 2148) with (1 + (E + 2148)) by lia.
    rewrite Z.pow_add_r by lia. rewrite Z.mul_assoc. reflexivity.
  - assert (Hd : Zdigits2 m1 <= 53).
    { destruct m1 as [|p|p]; [simpl; lia| |lia].
      change (Zdigits2 (Z.pos p)) with (Z.pos (digits2_pos p)).
      pose proof (digits2_pos_bounds p) as [Hlo' _].
      destruct (Z.le_gt_cases (Z.pos (digits2_pos p)) 53) as [H|H]; [exact H|].
      assert (2 ^ 53 <= 2 ^ (Z.pos (digits2_pos p) - 1)) by (apply Z.pow_le_mono_r; lia).
      lia. }
    rewrite shr_nonpos by lia. cbn [fst snd]. rewrite shr_record_of_loc_m. split; lia.
Qed.

Lemma binary_round_aux_spec sx (M : positive) ez : -2148 <= ez ->
  (rnd (Z.pos M * 2 ^ (ez + 2148)) = 0 /\
   binary_round_aux prec emax sx (Z.pos M) ez loc_Exact = S754_zero sx) \/
  (exists m2 e2,
     binary_round_aux prec emax sx (Z.pos M) ez loc_Exact =
       (if e2 <=? 971 then S754_finite sx m2 e2 else S754_infinity sx) /\
     Z.pos m2 * 2 ^ (e2 + 2148) = rnd (Z.pos M * 2 ^ (ez + 2148)) /\ -1074 <= e2).
Proof.
  intros Hez.
  set (T := Z.pos M * 2 ^ (ez + 2148)).
  set (E := Z.max (Z.pos (digits2_pos M) + ez - 53) (-1074)).
  pose proof (pow2_pos (ez + 2148) ltac:(lia)) as Hc.
  assert (HE : rnd_exp T = E).
  { unfold rnd_exp, T, E. rewrite Z.log2_mul_pow2 by lia. rewrite digits_log2. lia. }
  pose proof (digits2_pos_bounds M) as [Hlo Hhi].
  unfold binary_round_aux. rewrite shr_fexp_eq.
  change (Zdigits2 (Z.pos M)) with (Z.pos (digits2_pos M)). fold E.
  destruct (Z.le_gt_cases ez E) as [Hle|Hgt].
  - destruct (shr_exact_inv (Z.pos M) ez (E - ez) ltac:(lia) ltac:(lia)) as [Hinv He'].
    destruct (shr (shr_record_of_loc (Z.pos M) loc_Exact) ez (E - ez)) as [mrs' e'].
    simpl fst in Hinv. simpl snd in He'. subst e'.
    replace (ez + (E - ez)) with E by lia.
    rewrite (round_loc (Z.pos M) (E - ez) mrs' ltac:(lia) ltac:(lia) Hinv).
    destruct Hinv as [Hq _].
    pose proof (pow2_pos (E - ez) ltac:(lia)) as Hk.
    assert (Hg : 2 ^ (E + 2148) = 2 ^ (E - ez) * 2 ^ (ez + 2148))
      by (rewrite <- Z.pow_add_r by lia; f_equal; lia).
    assert (HrT : rnd T = (shr_m mrs' + (if round_up (shr_m mrs') (Z.pos M mod 2 ^ (E - ez))
                          (2 ^ (E - ez)) then 1 else 0)) * 2 ^ (E + 2148)).
    { unfold rnd. rewrite HE, Hg. unfold T.
      rewrite Z.div_mul_cancel_r, Z.mul_mod_distr_r, round_up_scale by lia.
      rewrite <- Hq. reflexivity. }
    assert (Hq0 : 0 <= shr_m mrs') by (rewrite Hq; apply Z.div_pos; lia).
    assert (Hqhi : shr_m mrs' < 2 ^ 53).
    { rewrite Hq. apply Z.div_lt_upper_bound; [lia|].
      assert (2 ^ Z.pos (digits2_pos M) <= 2 ^ (E - ez) * 2 ^ 53).
      { rewrite <- Z.pow_add_r by lia. apply Z.pow_le_mono_r; lia. }
      lia. }
    set (m1 := shr_m mrs' + (if round_up (shr_m mrs') (Z.pos M mod 2 ^ (E - ez))
                          (2 ^ (E - ez)) then 1 else 0)) in *.
    assert (Hm1 : 0 <= m1 <= 2 ^ 53)
      by (unfold m1; destruct (round_up _ _ _); lia).
    destruct (second_stage m1 E ltac:(lia) Hm1) as [Hv He2].
    destruct (shr_fexp prec emax m1 E loc_Exact) as [mrs'' e''].
    cbn [fst snd] in Hv, He2. change (emax - prec) with 971.
    destruct (shr_m mrs'') as [|m2|m2] eqn:Hm2.
    + left. split; [|reflexivity].
      rewrite HrT. pose proof (pow2_pos (E + 2148) ltac:(lia)).
      pose proof (pow2_pos (e'' + 2148) ltac:(lia)). nia.
    + right. exists m2, e''. split; [reflexivity|]. split; [rewrite HrT; exact Hv|lia].
    + pose proof (pow2_pos (E + 2148) ltac:(lia)).
      pose proof (pow2_pos (e'' + 2148) ltac:(lia)). nia.
  - rewrite shr_nonpos by lia. cbn [fst snd].
    cbn [shr_m shr_record_of_loc loc_of_shr_record round_nearest_even].
    rewrite shr_fexp_eq.
    change (Zdigits2 (Z.pos M)) with (Z.pos (digits2_pos M)). fold E.
    rewrite shr_nonpos by lia. cbn [fst snd shr_m shr_record_of_loc].
    change (emax - prec) with 971.
    right. exists M, ez. split; [reflexivity|]. split; [|lia].
    unfold rnd. rewrite HE.
    assert (Hg : T = Z.pos M * 2 ^ (ez - E) * 2 ^ (E + 2148)).
    { unfold T. rewrite <- Z.mul_assoc, <- Z.pow_add_r by lia. f_equal. f_equal. lia. }
    pose proof (pow2_pos (E + 2148) ltac:(lia)).
    rewrite Hg, Z.div_mul, Z.mod_mul by lia.
    unfold round_up. replace (2 ^ (E + 2148) <? 2 * 0) with false
      by (symmetry; apply Z.ltb_ge; lia).
    replace (2 * 0 =? 2 ^ (E + 2148)) with false by (symmetry; apply Z.eqb_neq; lia).
    cbn [orb andb]. rewrite Z.add_0_r. exact Hg.
Qed.

Lemma rnd_bounds T : 0 <= T ->
  0 < 2 ^ (rnd_exp T + 2148) /\
  T / 2 ^ (rnd_exp T + 2148) * 2 ^ (rnd_exp T + 2148) <= rnd T <=
  (T / 2 ^ (rnd_exp T + 2148) + 1) * 2 ^ (rnd_exp T + 2148).
Proof.
  intros HT. assert (Hg : 0 < 2 ^ (rnd_exp T + 2148))
    by (apply pow2_pos; unfold rnd_exp; lia).
  split; [exact Hg|]. unfold rnd. cbv zeta.
  destruct (round_up _ _ _); nia.
Qed.

Lemma rnd_nonneg T : 0 <= T -> 0 <= rnd T.
Proof.
  intros HT. destruct (rnd_bounds T HT) as [Hg [H1 _]].
  assert (0 <= T / 2 ^ (rnd_exp T + 2148)) by (apply Z.div_pos; lia). nia.
Qed.

Lemma rnd_mono T1 T2 : 0 <= T1 <= T2 -> rnd T1 <= rnd T2.
Proof.
  intros HT.
  assert (HE : rnd_exp T1 <= rnd_exp T2).
  { unfold rnd_exp. pose proof (Z.log2_le_mono T1 T2 ltac:(lia)). lia. }
  destruct (Z.eq_dec (rnd_exp T1) (rnd_exp T2)) as [Heq|Hne].
  - unfold rnd. rewrite <- Heq. cbv zeta.
    set (g := 2 ^ (rnd_exp T1 + 2148)).
    assert (Hg : 0 < g) by (apply pow2_pos; unfold rnd_exp; lia).
    pose proof (Z.div_le_mono T1 T2 g Hg ltac:(lia)) as Hq.
    destruct (Z.eq_dec (T1 / g) (T2 / g)) as [Hqe|Hqn].
    + rewrite <- Hqe.
      pose proof (Z.div_mod T1 g ltac:(lia)). pose proof (Z.div_mod T2 g ltac:(lia)).
      assert (Hr : T1 mod g <= T2 mod g) by nia.
      unfold round_up.
      destruct (Z.ltb_spec g (2 * (T1 mod g))), (Z.ltb_spec g (2 * (T2 mod g)));
        try lia;
      destruct (Z.eqb_spec (2 * (T1 mod g)) g), (Z.eqb_spec (2 * (T2 mod g)) g);
        cbn [orb andb]; try lia;
      destruct (Z.odd (T1 / g)); cbn [andb]; lia.
    + destruct (round_up (T1 / g) (T1 mod g) g), (round_up (T2 / g) (T2 mod g) g); nia.
  - assert (HE2 : rnd_exp T2 = Z.log2 T2 + 1 - 2148 - 53) by (unfold rnd_exp in *; lia).
    destruct (rnd_bounds T1 ltac:(lia)) as [Hg1 [_ H1]].
    destruct (rnd_bounds T2 ltac:(lia)) as [Hg2 [H2 _]].
    set (g1 := 2 ^ (rnd_exp T1 + 2148)) in *.
    set (g2 := 2 ^ (rnd_exp T2 + 2148)) in *.
    assert (Hgg : 2 * g1 <= g2).
    { unfold g1, g2. rewrite <- Z.pow_succ_r by (unfold rnd_exp; lia).
      apply pow2_mono. unfold rnd_exp in *; lia. }
    assert (HT2 : 2 ^ 52 * g2 <= T2).
    { unfold g2. rewrite <- Z.pow_add_r by (unfold rnd_exp; lia).
      assert (0 < T2).
      { destruct (Z.eq_dec T2 0) as [H0|H0]; [|lia].
        exfalso. apply Hne. assert (T1 = 0) by lia. rewrite H, H0. reflexivity. }
      pose proof (Z.log2_spec T2 ltac:(lia)) as [Hl _].
      replace (52 + (rnd_exp T2 + 2148)) with (Z.log2 T2) by lia. exact Hl. }
    assert (HT1 : T1 < 2 ^ 53 * g1).
    { unfold g1. rewrite <- Z.pow_add_r by (unfold rnd_exp; lia).
      destruct (Z.eq_dec T1 0) as [H0|H0].
      - rewrite H0. apply pow2_pos. unfold rnd_exp; lia.
      - pose proof (Z.log2_spec T1 ltac:(lia)) as [_ Hl].
        eapply Z.lt_le_trans; [exact Hl|]. apply pow2_mono.
        pose proof (Z.log2_nonneg T1). unfold rnd_exp; lia. }
    assert (Hq1 : T1 / g1 < 2 ^ 53) by (apply Z.div_lt_upper_bound; lia).
    assert (Hq2 : 2 ^ 52 <= T2 / g2) by (apply Z.div_le_lower_bound; lia).
    nia.
Qed.

Lemma srnd_mono V1 V2 : V1 <= V2 -> srnd V1 <= srnd V2.
Proof.
  intros HV. unfold srnd.
  destruct (Z.leb_spec 0 V1), (Z.leb_spec 0 V2).
  - apply rnd_mono; lia.
  - lia.
  - pose proof (rnd_nonneg (- V1) ltac:(lia)). pose proof (rnd_nonneg V2 ltac:(lia)). lia.
  - pose proof (rnd_mono (- V2) (- V1) ltac:(lia)). lia.
Qed.

Lemma rnd_zero : rnd 0 = 0.
Proof. reflexivity. Qed.

Lemma srnd_zero : srnd 0 = 0.
Proof. reflexivity. Qed.

Lemma cond_Zopp_mul sx sy A B :
  cond_Zopp sx A * cond_Zopp sy B = cond_Zopp (xorb sx sy) (A * B).
Proof. destruct sx, sy; simpl; ring. Qed.

Lemma srnd_signed s T : 0 < T -> srnd (cond_Zopp s T) = cond_Zopp s (rnd T).
Proof.
  intros HT. unfold srnd. destruct s; simpl.
  - destruct (Z.leb_spec 0 (- T)); [lia|]. rewrite Z.opp_involutive. reflexivity.
  - destruct (Z.leb_spec 0 T); [reflexivity|lia].
Qed.

Lemma abs_cond_Zopp s T : 0 <= T -> Z.abs (cond_Zopp s T) = T.
Proof. intros HT. destruct s; simpl; lia. Qed.

Lemma SFmul_spec a b :
  valid_binary a = true -> valid_binary b = true ->
  fin_or_zero a = true -> fin_or_zero b = true ->
  (fin_or_zero (SFmul prec emax a b) = true /\
   sval (SFmul prec emax a b) * 2 ^ 1074 = srnd (sval a * sval b)) \/
  (exists s, SFmul prec emax a b = S754_infinity s /\
   2 ^ 3120 <= rnd (Z.abs (sval a * sval b))).
Proof.
  intros Va Vb Fa Fb.
  destruct a as [sx| | |sx mx ex]; try discriminate;
  destruct b as [sy| | |sy my ey]; try discriminate;
  try (left; split; [reflexivity|];
       cbn [SFmul sval]; rewrite ?Z.mul_0_r, ?Z.mul_0_l; reflexivity).
  destruct (valid_finite _ _ _ Va) as [Hex _].
  destruct (valid_finite _ _ _ Vb) as [Hey _].
  unfold SFmul.
  assert (Hprod : sval (S754_finite sx mx ex) * sval (S754_finite sy my ey) =
    cond_Zopp (xorb sx sy) (Z.pos (mx * my) * 2 ^ (ex + ey + 2148))).
  { unfold sval. rewrite cond_Zopp_mul. apply (f_equal (cond_Zopp _)).
    replace (ex + ey + 2148) with ((ex + 1074) + (ey + 1074)) by lia.
    rewrite (Z.pow_add_r 2 (ex + 1074) (ey + 1074)), Pos2Z.inj_mul by lia. ring. }
  rewrite Hprod.
  pose proof (pow2_pos (ex + ey + 2148) ltac:(lia)) as Hc.
  rewrite abs_cond_Zopp by lia. rewrite srnd_signed by lia.
  destruct (binary_round_aux_spec (xorb sx sy) (mx * my) (ex + ey) ltac:(lia))
    as [[Hz Hr] | [m2 [e2 [Hr [Hv He2]]]]]; rewrite Hr.
  - left. split; [reflexivity|]. rewrite Hz. destruct (xorb sx sy); reflexivity.
  - destruct (Z.leb_spec e2 971).
    + left. split; [reflexivity|]. unfold sval. rewrite <- Hv.
      replace (e2 + 2148) with ((e2 + 1074) + 1074) by lia.
      rewrite (Z.pow_add_r 2 (e2 + 1074) 1074) by lia. destruct (xorb sx sy); cbn [cond_Zopp]; ring.
    + right. exists (xorb sx sy). split; [reflexivity|].
      rewrite <- Hv. assert (2 ^ 3120 <= 2 ^ (e2 + 2148)) by (apply pow2_mono; lia).
      lia.
Qed.

Lemma mul_fin x y :
  fin_or_zero (Prim2SF x) = true -> fin_or_zero (Prim2SF y) = true ->
  (fin_or_zero (Prim2SF (x * y)) = true /\
   sval (Prim2SF (x * y)) * 2 ^ 1074 = srnd (sval (Prim2SF x) * sval (Prim2SF y))) \/
  (exists s, Prim2SF (x * y) = S754_infinity s /\
   2 ^ 3120 <= rnd (Z.abs (sval (Prim2SF x) * sval (Prim2SF y)))).
Proof.
  intros Fx Fy. rewrite mul_spec.
  apply SFmul_spec; auto; apply Prim2SF_valid.
Qed.

End Binary64_mul.



(** * Properties of the placement loop *)

Section Facts.

Variables label_width label_height : float.
Variable offsets : list (float * float).

Local Abbreviation candidate_box := (Placement.candidate_box label_width label_height).
Local Abbreviation try_offsets := (Placement.try_offsets label_width label_height).
Local Abbreviation place_step := (Placement.place_step label_width label_height offsets).
Local Abbreviation placeLabels := (Placement.placeLabels label_width label_height offsets).

Lemma disjoint_dim_sym get b1 b2 : disjoint_dim get b1 b2 = disjoint_dim get b2 b1.
Proof.
  unfold disjoint_dim.
  destruct (get (max_corner b1) <? get (min_corner b2))%float,
           (get (max_corner b2) <? get (min_corner b1))%float; reflexivity.
Qed.

Lemma intersects_sym b1 b2 : intersects b1 b2 = intersects b2 b1.
Proof.
  unfold intersects, disjoint.
  rewrite (disjoint_dim_sym get0 b1 b2), (disjoint_dim_sym get1 b1 b2).
  reflexivity.
Qed.

Lemma hasOverlap_false cand placed :
  hasOverlap cand placed = false ->
  forall p, In p placed -> intersects cand (label_box p) = false.
Proof.
  induction placed as [|q rest IH]; simpl; [tauto|].
  case_eq (intersects cand (label_box q)); intros Hq H p [<-|Hin];
    [discriminate | discriminate | exact Hq | exact (IH H p Hin)].
Qed.

Lemma try_offsets_some pt s offs result lp :
  try_offsets pt s offs result = Some lp ->
  point lp = pt /\ label lp = s /\ hasOverlap (label_box lp) result = false.
Proof.
  induction offs as [|off rest IH]; simpl; [discriminate|].
  case_eq (hasOverlap (candidate_box pt off) result); simpl; intros Hov H.
  - exact (IH H).
  - injection H as <-. simpl. auto.
Qed.

Lemma try_offsets_none pt s offs result :
  (forall off, In off offs -> hasOverlap (candidate_box pt off) result = true) ->
  try_offsets pt s offs result = None.
Proof.
  induction offs as [|off rest IH]; intros Hall; simpl; [reflexivity|].
  rewrite (Hall off (or_introl eq_refl)). simpl.
  apply IH. intros o Ho. apply Hall. right; exact Ho.
Qed.

Lemma place_step_some result pt s lp :
  try_offsets pt s offsets result = Some lp -> place_step result (pt, s) = result ++ [lp].
Proof. intros H. unfold Placement.place_step. rewrite H. reflexivity. Qed.

Lemma place_step_none result pt s :
  try_offsets pt s offsets result = None -> place_step result (pt, s) = result.
Proof. intros H. unfold Placement.place_step. rewrite H. reflexivity. Qed.

Lemma place_step_extends result e : exists t, place_step result e = result ++ t.
Proof.
  destruct e as [pt s]. unfold Placement.place_step.
  destruct (try_offsets pt s offsets result) as [lp|].
  - exists [lp]; reflexivity.
  - exists []; rewrite app_nil_r; reflexivity.
Qed.

Lemma fold_place_extends l : forall result,
  exists t, fold_left place_step l result = result ++ t.
Proof.
  induction l as [|e l IH]; intros result; simpl.
  - exists []; rewrite app_nil_r; reflexivity.
  - destruct (place_step_extends result e) as [t1 H1].
    destruct (IH (place_step result e)) as [t2 H2].
    exists (t1 ++ t2). rewrite H2, H1, app_assoc. reflexivity.
Qed.

Lemma nth_error_snoc {A : Type} (r : list A) (x a : A) i :
  nth_error (r ++ [x]) i = Some a ->
  nth_error r i = Some a \/ (i = length r /\ a = x).
Proof.
  intros H. destruct (Nat.lt_ge_cases i (length r)) as [Hlt|Hge].
  - left. rewrite nth_error_app1 in H by exact Hlt. exact H.
  - right. rewrite nth_error_app2 in H by exact Hge.
    destruct (i - length r) as [|k] eqn:Hk; simpl in H.
    + injection H as <-. split; [lia | reflexivity].
    + destruct k; discriminate.
Qed.

Lemma nth_error_In' {A : Type} (r : list A) i a : nth_error r i = Some a -> In a r.
Proof. apply nth_error_In. Qed.

Lemma pairwise_free_snoc result lp :
  pairwise_free result ->
  hasOverlap (label_box lp) result = false ->
  pairwise_free (result ++ [lp]).
Proof.
  intros Hpf Hfree i j a b Hij Ha Hb.
  pose proof (hasOverlap_false _ _ Hfree) as Hall.
  apply nth_error_snoc in Ha, Hb.
  destruct Ha as [Ha|[Hi ->]], Hb as [Hb|[Hj ->]].
  - exact (Hpf i j a b Hij Ha Hb).
  - rewrite intersects_sym. apply Hall. exact (nth_error_In' _ _ _ Ha).
  - apply Hall. exact (nth_error_In' _ _ _ Hb).
  - exfalso. apply Hij. congruence.
Qed.

Lemma place_step_pairwise_free result e :
  pairwise_free result -> pairwise_free (place_step result e).
Proof.
  destruct e as [pt s]. unfold Placement.place_step. intros Hpf.
  case_eq (try_offsets pt s offsets result); [intros lp Hlp | intros _]; [|exact Hpf].
  apply pairwise_free_snoc; [exact Hpf|].
  apply (try_offsets_some _ _ _ _ _ Hlp).
Qed.

Lemma fold_pairwise_free l : forall result,
  pairwise_free result -> pairwise_free (fold_left place_step l result).
Proof.
  induction l as [|e l IH]; intros result H; simpl; [exact H|].
  apply IH, place_step_pairwise_free, H.
Qed.

(** C1.  No two distinct entries of the result of [placeLabels] have boxes
    that overlap under [bg::intersects], the predicate [hasOverlap] uses. *)
Theorem placeLabels_no_overlap input_points i j a b :
  i <> j ->
  nth_error (placeLabels input_points) i = Some a ->
  nth_error (placeLabels input_points) j = Some b ->
  intersects (label_box a) (label_box b) = false.
Proof.
  apply fold_pairwise_free.
  intros i' j' a' b' _ Ha. destruct i'; discriminate.
Qed.

Lemma subseq_insert {A : Type} (x : A) (u : list A) : forall l v,
  subseq l (u ++ v) -> subseq l (u ++ x :: v).
Proof.
  induction u as [|y u IH]; simpl; intros l v H.
  - apply subseq_skip, H.
  - inversion H; subst.
    + apply subseq_keep, IH. assumption.
    + apply subseq_skip, IH. assumption.
Qed.

Lemma subseq_refl {A : Type} (l : list A) : subseq l l.
Proof. induction l; constructor; assumption. Qed.

Lemma fold_subseq l : forall result,
  subseq (map entry_of (fold_left place_step l result)) (map entry_of result ++ l).
Proof.
  induction l as [|[pt s] l IH]; intros result; cbn [fold_left].
  - rewrite app_nil_r. apply subseq_refl.
  - case_eq (try_offsets pt s offsets result); [intros lp Hlp | intros Hlp].
    + rewrite (place_step_some _ _ _ _ Hlp).
      destruct (try_offsets_some _ _ _ _ _ Hlp) as [Hp [Hs _]].
      specialize (IH (result ++ [lp])).
      rewrite map_app in IH. cbn [map] in IH.
      replace (entry_of lp) with (pt, s) in IH
        by (unfold entry_of; rewrite Hp, Hs; reflexivity).
      rewrite <- app_assoc in IH. exact IH.
    + rewrite (place_step_none _ _ _ Hlp). apply subseq_insert, IH.
Qed.

(** C3.  The (point, label) pairs of the result, in order, form a
    subsequence of the input: each comes from its own input entry, in the
    input's order, and none is invented or repeated. *)
Theorem placeLabels_subsequence input_points :
  subseq (map entry_of (placeLabels input_points)) input_points.
Proof. exact (fold_subseq input_points []). Qed.

(** C5.  An entry all of whose candidate boxes overlap a box already
    accepted is dropped: the result is the one of the input without it, so
    the loop goes on with the remaining entries and nothing is signalled. *)
Theorem placeLabels_drops_unplaceable pre pt s post :
  (forall offset, In offset offsets ->
     hasOverlap (candidate_box pt offset) (placeLabels pre) = true) ->
  placeLabels (pre ++ (pt, s) :: post) = placeLabels (pre ++ post).
Proof.
  intros Hall.
  assert (Hstep : place_step (placeLabels pre) (pt, s) = placeLabels pre).
  { unfold Placement.place_step.
    rewrite (try_offsets_none pt s offsets _ Hall). reflexivity. }
  unfold Placement.placeLabels in *.
  rewrite !fold_left_app. cbn [fold_left]. rewrite Hstep. reflexivity.
Qed.

(** C6.  No backtracking: the result on a prefix of the input is a prefix of
    the result on the whole input. *)
Theorem placeLabels_prefix_monotone pre post :
  exists t, placeLabels (pre ++ post) = placeLabels pre ++ t.
Proof.
  unfold Placement.placeLabels. rewrite fold_left_app.
  apply fold_place_extends.
Qed.

Lemma try_rel_iff pt s result offs o :
  Placement.try_rel label_width label_height pt s result offs o <->
  try_offsets pt s offs result = o.
Proof.
  revert o. induction offs as [|off rest IH]; intros o; simpl; split.
  - intros H; inversion H; reflexivity.
  - intros <-; constructor.
  - intros H; inversion H; subst.
    + match goal with Hf : hasOverlap _ _ = false |- _ => rewrite Hf end. reflexivity.
    + match goal with Ht : hasOverlap _ _ = true |- _ => rewrite Ht end. simpl.
      apply IH. assumption.
  - case_eq (hasOverlap (candidate_box pt off) result); intros Hov; simpl; intros H.
    + apply Placement.try_next; [exact Hov|]. apply IH, H.
    + subst o. apply Placement.try_found, Hov.
Qed.

Lemma loop_rel_iff l : forall result final,
  Placement.loop_rel label_width label_height offsets result l final <->
  final = fold_left place_step l result.
Proof.
  induction l as [|[pt s] l IH]; intros result final; simpl; split.
  - intros H; inversion H; reflexivity.
  - intros ->; constructor.
  - intros H; inversion H; subst.
    + apply IH. unfold Placement.place_step.
      match goal with Ht : Placement.try_rel _ _ _ _ _ _ _ |- _ =>
        apply try_rel_iff in Ht; rewrite Ht end.
      assumption.
    + apply IH. unfold Placement.place_step.
      match goal with Ht : Placement.try_rel _ _ _ _ _ _ _ |- _ =>
        apply try_rel_iff in Ht; rewrite Ht end.
      assumption.
  - unfold Placement.place_step at 1.
    case_eq (try_offsets pt s offsets result); [intros lp Hlp | intros Hlp]; intros Hf.
    + apply (Placement.loop_push _ _ _ _ _ _ _ lp).
      * apply try_rel_iff, Hlp.
      * apply IH, Hf.
    + apply Placement.loop_drop.
      * apply try_rel_iff, Hlp.
      * apply IH, Hf.
Qed.

(** C7.  Determinism: every run of the placement loops on an input ends
    with one and the same result, [placeLabels input_points]. *)
Theorem placeLabels_deterministic input_points final :
  Placement.loop_rel label_width label_height offsets [] input_points final <->
  final = placeLabels input_points.
Proof. apply loop_rel_iff. Qed.

Lemma try_offsets_box pt s offs result lp :
  try_offsets pt s offs result = Some lp ->
  exists offset, In offset offs /\ label_box lp = candidate_box pt offset.
Proof.
  induction offs as [|off rest IH]; simpl; [discriminate|].
  case_eq (hasOverlap (candidate_box pt off) result); simpl; intros Hov H.
  - destruct (IH H) as [o [Ho Hb]]. exists o. split; [right; exact Ho | exact Hb].
  - injection H as <-. exists off. split; [left; reflexivity | reflexivity].
Qed.

Lemma fold_boxes l : forall result lp,
  In lp (fold_left place_step l result) ->
  In lp result \/
  exists pt s offset, In (pt, s) l /\ In offset offsets /\
    lp = mk_labeled_point pt s (candidate_box pt offset).
Proof.
  induction l as [|[pt s] l IH]; intros result lp; cbn [fold_left]; [tauto|].
  intros Hin. destruct (IH _ _ Hin) as [Hr|[pt' [s' [o [Hl [Ho ->]]]]]].
  - case_eq (try_offsets pt s offsets result); [intros q Hq | intros Hq].
    + rewrite (place_step_some _ _ _ _ Hq) in Hr. apply in_app_or in Hr.
      destruct Hr as [Hr|[<-|[]]]; [left; exact Hr|right].
      destruct (try_offsets_some _ _ _ _ _ Hq) as [Hp [Hs _]].
      destruct (try_offsets_box _ _ _ _ _ Hq) as [o [Ho Hb]].
      exists pt, s, o. split; [left; reflexivity | split; [exact Ho|]].
      destruct q as [qp qs qb]; simpl in *; subst. reflexivity.
    + rewrite (place_step_none _ _ _ Hq) in Hr. left; exact Hr.
  - right. exists pt', s', o. split; [right; exact Hl | split; [exact Ho | reflexivity]].
Qed.

(** Every entry of the result is one of its own input point's candidates. *)
Lemma placeLabels_entry_candidate input_points lp :
  In lp (placeLabels input_points) ->
  exists offset, In (point lp, label lp) input_points /\ In offset offsets /\
    label_box lp = candidate_box (point lp) offset.
Proof.
  intros Hin. destruct (fold_boxes input_points [] lp Hin) as [[]|[pt [s [o [Hl [Ho ->]]]]]].
  exists o. simpl. split; [exact Hl | split; [exact Ho | reflexivity]].
Qed.

(** The first entry meets an empty result, so its first candidate is taken. *)
Lemma placeLabels_first_entry pt s rest off offs' :
  offsets = off :: offs' ->
  exists tl, placeLabels ((pt, s) :: rest) =
    mk_labeled_point pt s (candidate_box pt off) :: tl.
Proof.
  intros Hoff. unfold Placement.placeLabels. cbn [fold_left].
  assert (Hstep : place_step [] (pt, s) = [mk_labeled_point pt s (candidate_box pt off)]).
  { unfold Placement.place_step. rewrite Hoff. reflexivity. }
  rewrite Hstep. destruct (fold_place_extends rest [mk_labeled_point pt s (candidate_box pt off)])
    as [t Ht].
  exists t. exact Ht.
Qed.

Lemma placeLabels_single_entry pt s off offs' :
  offsets = off :: offs' ->
  placeLabels [(pt, s)] = [mk_labeled_point pt s (candidate_box pt off)].
Proof.
  intros Hoff. unfold Placement.placeLabels. cbn [fold_left].
  unfold Placement.place_step. rewrite Hoff. reflexivity.
Qed.

(** The shape of every placed box: its [min_corner] is the point moved by
    one of the offsets, its [max_corner] that corner moved by the label
    size, each coordinate one rounded [double] addition. *)
Lemma placeLabels_box_shape input_points lp :
  In lp (placeLabels input_points) ->
  exists offset, In offset offsets /\
    min_corner (label_box lp) =
      mk_point (get0 (point lp) + fst offset) (get1 (point lp) + snd offset) /\
    max_corner (label_box lp) =
      mk_point (get0 (min_corner (label_box lp)) + label_width)
               (get1 (min_corner (label_box lp)) + label_height).
Proof.
  intros Hin. destruct (placeLabels_entry_candidate input_points lp Hin)
    as [[dx dy] [_ [Ho Hb]]].
  exists (dx, dy). rewrite Hb. split; [exact Ho | split; reflexivity].
Qed.

End Facts.


(** * Witnesses and concrete runs *)

(** The demo input of [Source.cpp]'s [main] and two coincident points. *)
Lemma placeLabels_no_overlap_witness :
  0 <> 1 /\
  nth_error (Source.placeLabels [(mk_point 0 0, "A"%string); (mk_point 0 0, "B"%string)]) 0 =
    Some (mk_labeled_point (mk_point 0 0) "A" (mk_box (mk_point 1 1) (mk_point 7 3))) /\
  nth_error (Source.placeLabels [(mk_point 0 0, "A"%string); (mk_point 0 0, "B"%string)]) 1 =
    Some (mk_labeled_point (mk_point 0 0) "B" (mk_box (mk_point (-7) 1) (mk_point (-1) 3))) /\
  intersects (mk_box (mk_point 1 1) (mk_point 7 3)) (mk_box (mk_point (-7) 1) (mk_point (-1) 3)) = false.
Proof.
  assert (H0 : nth_error (Source.placeLabels [(mk_point 0 0, "A"%string); (mk_point 0 0, "B"%string)]) 0 =
    Some (mk_labeled_point (mk_point 0 0) "A" (mk_box (mk_point 1 1) (mk_point 7 3))))
    by (vm_compute; reflexivity).
  assert (H1 : nth_error (Source.placeLabels [(mk_point 0 0, "A"%string); (mk_point 0 0, "B"%string)]) 1 =
    Some (mk_labeled_point (mk_point 0 0) "B" (mk_box (mk_point (-7) 1) (mk_point (-1) 3))))
    by (vm_compute; reflexivity).
  assert (Hne : 0 <> 1) by discriminate.
  split; [exact Hne | split; [exact H0 | split; [exact H1 |]]].
  exact (placeLabels_no_overlap Source.label_width Source.label_height Source.offsets
           [(mk_point 0 0, "A"%string); (mk_point 0 0, "B"%string)] 0 1
           (mk_labeled_point (mk_point 0 0) "A" (mk_box (mk_point 1 1) (mk_point 7 3)))
           (mk_labeled_point (mk_point 0 0) "B" (mk_box (mk_point (-7) 1) (mk_point (-1) 3)))
           Hne H0 H1).
Defined.

(** A point at (4, 2) after one at (0, 0): all four candidates of the second
    touch the first box [(1,1)-(7,3)], so it is dropped. *)
Lemma placeLabels_drops_unplaceable_witness :
  (forall offset, In offset Source.offsets ->
     hasOverlap (Placement.candidate_box Source.label_width Source.label_height (mk_point 4 2) offset)
       (Source.placeLabels [(mk_point 0 0, "A"%string)]) = true) /\
  Source.placeLabels ([(mk_point 0 0, "A"%string)] ++ (mk_point 4 2, "B"%string) :: [(mk_point 20 20, "C"%string)]) =
  Source.placeLabels ([(mk_point 0 0, "A"%string)] ++ [(mk_point 20 20, "C"%string)]).
Proof.
  assert (H : forall offset, In offset Source.offsets ->
     hasOverlap (Placement.candidate_box Source.label_width Source.label_height (mk_point 4 2) offset)
       (Source.placeLabels [(mk_point 0 0, "A"%string)]) = true).
  { intros offset Hin. vm_compute in Hin.
    destruct Hin as [<-|[<-|[<-|[<-|[]]]]]; vm_compute; reflexivity. }
  split; [exact H|].
  exact (placeLabels_drops_unplaceable Source.label_width Source.label_height Source.offsets
           [(mk_point 0 0, "A"%string)] (mk_point 4 2) "B" [(mk_point 20 20, "C"%string)] H).
Defined.

(** C2, refuted.  Two boxes sharing the edge x = 1 (zero-area intersection)
    are reported as overlapping by [hasOverlap], so [hasOverlap] is not the
    spec's positive-area test. *)
Lemma hasOverlap_touching_counterexample :
  ~ (forall candidate placed_labels,
       hasOverlap candidate placed_labels =
       existsb (fun p => overlaps_with_area candidate (label_box p)) placed_labels).
Proof.
  intros H.
  specialize (H (mk_box (mk_point 0 0) (mk_point 1 1))
                [mk_labeled_point (mk_point 1 0) "B" (mk_box (mk_point 1 0) (mk_point 2 1))]).
  vm_compute in H. discriminate H.
Qed.

(** C2, as the code has it.  [hasOverlap] is true exactly when some placed
    box is separated from the candidate on neither axis: on each axis
    neither [max1 < min2] nor [max2 < min1], the closed-interval test of
    [bg::intersects]; boxes that share only an edge are reported. *)
Theorem hasOverlap_closed_intervals candidate placed_labels :
  (hasOverlap candidate placed_labels = true <->
   exists p, In p placed_labels /\
     (get0 (max_corner candidate) <? get0 (min_corner (label_box p)))%float = false /\
     (get0 (max_corner (label_box p)) <? get0 (min_corner candidate))%float = false /\
     (get1 (max_corner candidate) <? get1 (min_corner (label_box p)))%float = false /\
     (get1 (max_corner (label_box p)) <? get1 (min_corner candidate))%float = false) /\
  hasOverlap (mk_box (mk_point 0 0) (mk_point 1 1))
    [mk_labeled_point (mk_point 1 0) "B" (mk_box (mk_point 1 0) (mk_point 2 1))] = true.
Proof.
  split; [|vm_compute; reflexivity].
  assert (Hi : forall b1 b2, intersects b1 b2 = true <->
     (get0 (max_corner b1) <? get0 (min_corner b2))%float = false /\
     (get0 (max_corner b2) <? get0 (min_corner b1))%float = false /\
     (get1 (max_corner b1) <? get1 (min_corner b2))%float = false /\
     (get1 (max_corner b2) <? get1 (min_corner b1))%float = false).
  { intros b1 b2. unfold intersects, disjoint, disjoint_dim.
    destruct (get0 (max_corner b1) <? get0 (min_corner b2))%float,
             (get0 (max_corner b2) <? get0 (min_corner b1))%float,
             (get1 (max_corner b1) <? get1 (min_corner b2))%float,
             (get1 (max_corner b2) <? get1 (min_corner b1))%float;
      simpl; (split; [intros H | intros (H1 & H2 & H3 & H4)]); try discriminate;
      repeat split; reflexivity. }
  induction placed_labels as [|q rest IH]; simpl.
  - split; [discriminate | intros [p [[] _]]].
  - case_eq (intersects candidate (label_box q)); intros Hq; split.
    + intros _. exists q. split; [left; reflexivity | apply Hi, Hq].
    + intros _. reflexivity.
    + intros H. destruct (proj1 IH H) as [p [Hp Hc]]. exists p. split; [right; exact Hp | exact Hc].
    + intros [p [[<-|Hp] Hc]].
      * apply Hi in Hc. congruence.
      * apply IH. exists p. split; [exact Hp | exact Hc].
Qed.

(** C8.  Swapping two different entries changes which one is labelled.
    Two entries at the same finite point (1e17, 1e17) with different labels:
    a unit of [double] is 16 there, so every candidate box of that point
    rounds to the single point (1e17, 1e17), and the second entry's
    candidates all touch the first entry's box.  Two entries at different
    points: the origin and the NaN point, whose candidate boxes intersect
    every box.  In each pair, the first entry of the input is labelled and
    the second is dropped, whichever order is given. *)
Theorem placeLabels_order_sensitive :
  (exists A B : point_t * string,
     snd A <> snd B /\
     PrimFloat.is_finite (get0 (fst A)) = true /\ PrimFloat.is_finite (get1 (fst A)) = true /\
     PrimFloat.is_finite (get0 (fst B)) = true /\ PrimFloat.is_finite (get1 (fst B)) = true /\
     (exists boxA, Source.placeLabels [A; B] = [mk_labeled_point (fst A) (snd A) boxA]) /\
     (exists boxB, Source.placeLabels [B; A] = [mk_labeled_point (fst B) (snd B) boxB])) /\
  (exists A B : point_t * string,
     fst A <> fst B /\ snd A <> snd B /\
     (exists boxA, Source.placeLabels [A; B] = [mk_labeled_point (fst A) (snd A) boxA]) /\
     (exists boxB, Source.placeLabels [B; A] = [mk_labeled_point (fst B) (snd B) boxB])).
Proof.
  split.
  - exists (mk_point 1e17 1e17, "A"%string), (mk_point 1e17 1e17, "B"%string).
    split; [discriminate|].
    repeat split; try (vm_compute; reflexivity); eexists; vm_compute; reflexivity.
  - exists (mk_point 0 0, "A"%string), (mk_point PrimFloat.nan PrimFloat.nan, "B"%string).
    split.
    + intros H. apply (f_equal (fun p => PrimFloat.is_nan (get0 p))) in H.
      vm_compute in H. discriminate H.
    + split; [discriminate|]. split; eexists; vm_compute; reflexivity.
Qed.

(** C10, refuted.  With [main.cpp]'s constants the point (1, 1) of its own
    demo gets the box (1.2, 1.2)-(1.6000000000000001, 1.3999999999999999):
    its width in [double] is 0.40000000000000013, not [label_width]. *)
Lemma box_size_counterexample :
  ~ (forall input_points lp, In lp (Main.placeLabels input_points) ->
       (get0 (max_corner (label_box lp)) - get0 (min_corner (label_box lp)))%float = Main.label_width /\
       (get1 (max_corner (label_box lp)) - get1 (min_corner (label_box lp)))%float = Main.label_height).
Proof.
  intros H.
  destruct (H [(mk_point 1 1, "A"%string)]
              (mk_labeled_point (mk_point 1 1) "A"
                 (mk_box (mk_point 1.2 1.2) (mk_point 1.6000000000000001 1.3999999999999999))))
    as [Hx _].
  { vm_compute. left. reflexivity. }
  apply (f_equal (fun v => PrimFloat.eqb v Main.label_width)) in Hx.
  vm_compute in Hx. discriminate Hx.
Qed.

(** C4.  The first input point meets an empty placed set and always gets
    its first configured offset: in both files its box has the corner
    (x + dx, y + dy) as [min_corner] and that corner moved by
    (+label_width, +label_height) as [max_corner], and on each axis the
    [max_corner] coordinate is not below the [min_corner] one (adding a
    positive [double] never decreases a [double]); a singleton input gives
    exactly that one entry. *)
Theorem placeLabels_first_point_first_offset :
  (forall pt s rest,
     (exists tl, Source.placeLabels ((pt, s) :: rest) =
        mk_labeled_point pt s
          (mk_box (mk_point (get0 pt + 1) (get1 pt + 1))
                  (mk_point (get0 pt + 1 + Source.label_width)
                            (get1 pt + 1 + Source.label_height)))%float :: tl) /\
     Source.placeLabels [(pt, s)] =
       [mk_labeled_point pt s
          (mk_box (mk_point (get0 pt + 1) (get1 pt + 1))
                  (mk_point (get0 pt + 1 + Source.label_width)
                            (get1 pt + 1 + Source.label_height)))%float] /\
     (get0 pt + 1 + Source.label_width <? get0 pt + 1)%float = false /\
     (get1 pt + 1 + Source.label_height <? get1 pt + 1)%float = false) /\
  (forall pt s rest,
     (exists tl, Main.placeLabels ((pt, s) :: rest) =
        mk_labeled_point pt s
          (mk_box (mk_point (get0 pt + 0.2) (get1 pt + 0.2))
                  (mk_point (get0 pt + 0.2 + Main.label_width)
                            (get1 pt + 0.2 + Main.label_height)))%float :: tl) /\
     Main.placeLabels [(pt, s)] =
       [mk_labeled_point pt s
          (mk_box (mk_point (get0 pt + 0.2) (get1 pt + 0.2))
                  (mk_point (get0 pt + 0.2 + Main.label_width)
                            (get1 pt + 0.2 + Main.label_height)))%float] /\
     (get0 pt + 0.2 + Main.label_width <? get0 pt + 0.2)%float = false /\
     (get1 pt + 0.2 + Main.label_height <? get1 pt + 0.2)%float = false).
Proof.
  split; intros pt s rest; (split; [|split; [|split]]).
  - exact (placeLabels_first_entry Source.label_width Source.label_height Source.offsets
             pt s rest _ _ eq_refl).
  - exact (placeLabels_single_entry Source.label_width Source.label_height Source.offsets
             pt s _ _ eq_refl).
  - apply Binary64.add_not_lt. vm_compute. exact I.
  - apply Binary64.add_not_lt. vm_compute. exact I.
  - exact (placeLabels_first_entry Main.label_width Main.label_height Main.offsets
             pt s rest _ _ eq_refl).
  - exact (placeLabels_single_entry Main.label_width Main.label_height Main.offsets
             pt s _ _ eq_refl).
  - apply Binary64.add_not_lt. vm_compute. exact I.
  - apply Binary64.add_not_lt. vm_compute. exact I.
Qed.

(** C10, as the code has it.  In both files every placed box has
    [max_corner] = [min_corner] + (label_width, label_height), each
    coordinate computed by one rounded [double] addition, so the box has
    the configured size up to that rounding (not exactly, see above); its
    [min_corner] is the point moved by one of the offsets, and is the
    bottom-left corner: no [max_corner] coordinate is below the matching
    [min_corner] coordinate. *)
Theorem placeLabels_box_corners :
  (forall input_points lp, In lp (Source.placeLabels input_points) ->
     exists offset, In offset Source.offsets /\
       min_corner (label_box lp) =
         mk_point (get0 (point lp) + fst offset) (get1 (point lp) + snd offset) /\
       max_corner (label_box lp) =
         mk_point (get0 (min_corner (label_box lp)) + Source.label_width)
                  (get1 (min_corner (label_box lp)) + Source.label_height) /\
       (get0 (max_corner (label_box lp)) <? get0 (min_corner (label_box lp)))%float = false /\
       (get1 (max_corner (label_box lp)) <? get1 (min_corner (label_box lp)))%float = false) /\
  (forall input_points lp, In lp (Main.placeLabels input_points) ->
     exists offset, In offset Main.offsets /\
       min_corner (label_box lp) =
         mk_point (get0 (point lp) + fst offset) (get1 (point lp) + snd offset) /\
       max_corner (label_box lp) =
         mk_point (get0 (min_corner (label_box lp)) + Main.label_width)
                  (get1 (min_corner (label_box lp)) + Main.label_height) /\
       (get0 (max_corner (label_box lp)) <? get0 (min_corner (label_box lp)))%float = false /\
       (get1 (max_corner (label_box lp)) <? get1 (min_corner (label_box lp)))%float = false).
Proof.
  split; intros input_points lp Hin.
  - destruct (placeLabels_box_shape Source.label_width Source.label_height Source.offsets
                input_points lp Hin) as [o [Ho [Hmin Hmax]]].
    exists o. rewrite Hmax. cbn [get0 get1].
    split; [exact Ho | split; [exact Hmin | split; [reflexivity | split]]];
      apply Binary64.add_not_lt; vm_compute; exact I.
  - destruct (placeLabels_box_shape Main.label_width Main.label_height Main.offsets
                input_points lp Hin) as [o [Ho [Hmin Hmax]]].
    exists o. rewrite Hmax. cbn [get0 get1].
    split; [exact Ho | split; [exact Hmin | split; [reflexivity | split]]];
      apply Binary64.add_not_lt; vm_compute; exact I.
Qed.

(** * Properties of the image coordinates ([main.cpp]) *)

Module Image_facts.
Import Binary64 Rounding Binary64_mul Image.
Local Open Scope Z_scope.

Lemma sval_finite_pos s m e : -1074 <= e ->
  sval (S754_finite s m e) = cond_Zopp s (Z.pos m * 2 ^ (e + 1074)) /\
  0 < Z.pos m * 2 ^ (e + 1074).
Proof.
  intros He. split; [reflexivity|].
  pose proof (pow2_pos (e + 1074) ltac:(lia)). lia.
Qed.

Lemma compare_fz a b :
  valid_binary a = true -> valid_binary b = true ->
  fin_or_zero a = true -> fin_or_zero b = true ->
  SFcompare a b = Some (Z.compare (sval a) (sval b)).
Proof.
  intros Va Vb Fa Fb.
  destruct a as [sa| | |sa ma ea]; try discriminate;
  destruct b as [sb| | |sb mb eb]; try discriminate.
  - reflexivity.
  - destruct (valid_finite _ _ _ Vb) as [Heb _].
    destruct (sval_finite_pos sb mb eb ltac:(lia)) as [Hs Hp].
    cbn [SFcompare]. rewrite Hs. cbn [sval].
    destruct sb; cbn [cond_Zopp]; f_equal; symmetry;
      [apply Z.compare_gt_iff | apply Z.compare_lt_iff]; lia.
  - destruct (valid_finite _ _ _ Va) as [Hea _].
    destruct (sval_finite_pos sa ma ea ltac:(lia)) as [Hs Hp].
    cbn [SFcompare]. rewrite Hs. cbn [sval].
    destruct sa; cbn [cond_Zopp]; f_equal; symmetry;
      [apply Z.compare_lt_iff | apply Z.compare_gt_iff]; lia.
  - exact (compare_finite _ _ _ _ _ _ Va Vb).
Qed.

Lemma leb_fz x y :
  fin_or_zero (Prim2SF x) = true -> fin_or_zero (Prim2SF y) = true ->
  (x <=? y)%float = (sval (Prim2SF x) <=? sval (Prim2SF y)).
Proof.
  intros Fx Fy. rewrite leb_spec. unfold SFleb.
  rewrite compare_fz by (auto; apply Prim2SF_valid).
  destruct (Z.compare_spec (sval (Prim2SF x)) (sval (Prim2SF y)));
    symmetry; [apply Z.leb_le | apply Z.leb_le | apply Z.leb_gt]; lia.
Qed.

Lemma ltb_fz x y :
  fin_or_zero (Prim2SF x) = true -> fin_or_zero (Prim2SF y) = true ->
  (x <? y)%float = (sval (Prim2SF x) <? sval (Prim2SF y)).
Proof.
  intros Fx Fy. rewrite ltb_spec. unfold SFltb.
  rewrite compare_fz by (auto; apply Prim2SF_valid).
  destruct (Z.compare_spec (sval (Prim2SF x)) (sval (Prim2SF y)));
    symmetry; [apply Z.ltb_ge | apply Z.ltb_lt | apply Z.ltb_ge]; lia.
Qed.

(** A number between two finite bounds is finite or zero: the bounds
    exclude NaN and both infinities. *)
Lemma between_fz lo a hi :
  fin_or_zero (Prim2SF lo) = true -> fin_or_zero (Prim2SF hi) = true ->
  (lo <=? a)%float = true -> (a <=? hi)%float = true ->
  fin_or_zero (Prim2SF a) = true.
Proof.
  intros Flo Fhi. rewrite !leb_spec. unfold SFleb.
  destruct (Prim2SF lo) as [|[|]| |]; try discriminate;
  destruct (Prim2SF hi) as [|[|]| |]; try discriminate;
  destruct (Prim2SF a) as [|[|]| |]; cbn; congruence.
Qed.

(** A finite or zero product has finite or zero factors. *)
Lemma mul_fz_inv x y :
  fin_or_zero (Prim2SF (x * y)) = true ->
  fin_or_zero (Prim2SF x) = true /\ fin_or_zero (Prim2SF y) = true.
Proof.
  rewrite mul_spec. unfold SF64mul.
  destruct (Prim2SF x) as [|[|]| |]; destruct (Prim2SF y) as [|[|]| |];
    cbn; try discriminate; auto.
Qed.

Lemma srnd_pos X : 0 <= X -> srnd X = rnd X.
Proof. intros HX. unfold srnd. destruct (Z.leb_spec 0 X); [reflexivity|lia]. Qed.

Lemma srnd_neg X : 0 <= X -> srnd (- X) = - rnd X.
Proof.
  intros HX. unfold srnd. destruct (Z.leb_spec 0 (- X)).
  - assert (X = 0) by lia. subst X. reflexivity.
  - rewrite Z.opp_involutive. reflexivity.
Qed.

(** [static_cast<int>] of a product: it is defined only for finite or zero
    factors, and is then the truncation of the rounded exact product. *)
Lemma static_cast_mul x y t :
  static_cast_int (x * y)%float = Some t ->
  fin_or_zero (Prim2SF x) = true /\ fin_or_zero (Prim2SF y) = true /\
  t = Z.quot (srnd (sval (Prim2SF x) * sval (Prim2SF y))) (2 ^ 2148) /\
  INT_MIN <= t <= INT_MAX.
Proof.
  unfold static_cast_int.
  destruct (Prim2SF (x * y)%float) eqn:Hp; try discriminate;
  (assert (Hf : fin_or_zero (Prim2SF (x * y)%float) = true) by (rewrite Hp; reflexivity));
  rewrite <- Hp; unfold int_result;
  destruct ((INT_MIN <=? _) && (_ <=? INT_MAX)) eqn:Hr; try discriminate;
  intros Ht; injection Ht as <-;
  apply andb_prop in Hr; destruct Hr as [Hr1 Hr2];
  apply Z.leb_le in Hr1; apply Z.leb_le in Hr2;
  destruct (mul_fz_inv x y Hf) as [Fx Fy];
  (split; [exact Fx | split; [exact Fy | split; [| lia]]]);
  destruct (mul_fin x y Fx Fy) as [[_ Hv] | [s' [Hinf _]]];
  try (rewrite Hinf in Hf; discriminate);
  rewrite <- Hv;
  replace (2 ^ 2148) with (2 ^ 1074 * 2 ^ 1074) by reflexivity;
  rewrite Z.quot_mul_cancel_r by (apply Z.pow_nonzero; lia); reflexivity.
Qed.

(** With a positive finite [scale], [static_cast<int>(v * scale)] is
    monotone in [v]. *)
Lemma static_cast_mul_mono a b scale ms es ta tb :
  Prim2SF scale = S754_finite false ms es ->
  sval (Prim2SF a) <= sval (Prim2SF b) ->
  static_cast_int (a * scale)%float = Some ta ->
  static_cast_int (b * scale)%float = Some tb ->
  ta <= tb.
Proof.
  intros Hs Hab Ha Hb.
  destruct (static_cast_mul _ _ _ Ha) as [_ [_ [-> _]]].
  destruct (static_cast_mul _ _ _ Hb) as [_ [_ [-> _]]].
  apply Z.quot_le_mono; [apply pow2_pos; lia|].
  apply srnd_mono. apply Z.mul_le_mono_nonneg_r; [|exact Hab].
  rewrite Hs. cbn [sval cond_Zopp].
  pose proof (Prim2SF_valid scale) as V. rewrite Hs in V.
  destruct (valid_finite _ _ _ V) as [He _].
  pose proof (pow2_pos (es + 1074) ltac:(lia)). lia.
Qed.

(** If the rounded exact product is within [B] in absolute value, [B] an
    [int] bound at which rounding is exact, the cast is defined and within
    [B]. *)
Lemma static_cast_mul_bound x y B :
  fin_or_zero (Prim2SF x) = true -> fin_or_zero (Prim2SF y) = true ->
  0 <= B <= INT_MAX ->
  rnd (B * 2 ^ 2148) = B * 2 ^ 2148 ->
  Z.abs (sval (Prim2SF x) * sval (Prim2SF y)) <= B * 2 ^ 2148 ->
  exists t, static_cast_int (x * y)%float = Some t /\ - B <= t <= B.
Proof.
  intros Fx Fy HB Hex Habs.
  assert (Hsmall : B * 2 ^ 2148 < 2 ^ 3120).
  { unfold INT_MAX in HB.
    assert (2 ^ 31 * 2 ^ 2148 <= 2 ^ 3120)
      by (rewrite <- Z.pow_add_r by lia; apply pow2_mono; lia).
    pose proof (pow2_pos 2148 ltac:(lia)). nia. }
  set (V := sval (Prim2SF x) * sval (Prim2SF y)) in *.
  destruct (mul_fin x y Fx Fy) as [[Ff Hv] | [s' [_ Hbig]]].
  - assert (Hsr : - (B * 2 ^ 2148) <= srnd V <= B * 2 ^ 2148).
    { pose proof (pow2_pos 2148 ltac:(lia)).
      pose proof (srnd_mono (- (B * 2 ^ 2148)) V ltac:(lia)) as H1.
      pose proof (srnd_mono V (B * 2 ^ 2148) ltac:(lia)) as H2.
      rewrite (srnd_neg (B * 2 ^ 2148)), Hex in H1 by nia.
      rewrite (srnd_pos (B * 2 ^ 2148)), Hex in H2 by nia. lia. }
    fold V in Hv.
    assert (Hq : - B <= Z.quot (sval (Prim2SF (x * y))) (2 ^ 1074) <= B).
    { pose proof (pow2_pos 1074 ltac:(lia)) as Hp.
      assert (Hs : - (B * 2 ^ 1074) <= sval (Prim2SF (x * y)) <= B * 2 ^ 1074).
      { replace (2 ^ 2148) with (2 ^ 1074 * 2 ^ 1074) in Hsr by reflexivity. nia. }
      split.
      - rewrite <- (Z.quot_mul (- B) (2 ^ 1074)) by lia.
        apply Z.quot_le_mono; lia.
      - rewrite <- (Z.quot_mul B (2 ^ 1074)) by lia.
        apply Z.quot_le_mono; lia. }
    exists (Z.quot (sval (Prim2SF (x * y))) (2 ^ 1074)). split; [|exact Hq].
    unfold static_cast_int, int_result.
    destruct (Prim2SF (x * y)%float) eqn:Hp; try discriminate;
      replace ((INT_MIN <=? _) && (_ <=? INT_MAX)) with true
        by (symmetry; apply andb_true_intro; split; apply Z.leb_le;
            unfold INT_MIN, INT_MAX in *; lia);
      reflexivity.
  - fold V in Hbig. pose proof (rnd_mono (Z.abs V) (B * 2 ^ 2148) ltac:(lia)). lia.
Qed.

(** A coordinate in [[-25000000, 25000000]], scaled by [SCALE], casts to
    an [int] within [2000000000]. *)
Lemma coord_cast v :
  (-25000000 <=? v)%float = true -> (v <=? 25000000)%float = true ->
  exists t, static_cast_int (v * SCALE)%float = Some t /\
    -2000000000 <= t <= 2000000000.
Proof.
  intros Hlo Hhi.
  assert (Flo : fin_or_zero (Prim2SF (-25000000)%float) = true) by (vm_compute; reflexivity).
  assert (Fhi : fin_or_zero (Prim2SF 25000000%float) = true) by (vm_compute; reflexivity).
  assert (Fs : fin_or_zero (Prim2SF SCALE) = true) by (vm_compute; reflexivity).
  pose proof (between_fz _ _ _ Flo Fhi Hlo Hhi) as Fv.
  rewrite leb_fz in Hlo, Hhi by assumption.
  apply Z.leb_le in Hlo. apply Z.leb_le in Hhi.
  assert (Hlo' : sval (Prim2SF (-25000000)%float) = - (25000000 * 2 ^ 1074))
    by (vm_compute; reflexivity).
  assert (Hhi' : sval (Prim2SF 25000000%float) = 25000000 * 2 ^ 1074)
    by (vm_compute; reflexivity).
  assert (Hs : sval (Prim2SF SCALE) = 80 * 2 ^ 1074) by (vm_compute; reflexivity).
  rewrite Hlo' in Hlo. rewrite Hhi' in Hhi.
  destruct (static_cast_mul_bound v SCALE 2000000000 Fv Fs) as [t [Ht Hb]].
  - unfold INT_MAX. lia.
  - vm_compute. reflexivity.
  - rewrite Hs. pose proof (pow2_pos 1074 ltac:(lia)).
    replace (2 ^ 2148) with (2 ^ 1074 * 2 ^ 1074) by reflexivity.
    apply Z.abs_le. nia.
  - exists t. split; [exact Ht | lia].
Qed.

Lemma int_result_some z t : int_result z = Some t -> t = z /\ INT_MIN <= z <= INT_MAX.
Proof.
  unfold int_result. destruct (Z.leb_spec INT_MIN z), (Z.leb_spec z INT_MAX);
    cbn [andb]; intros Hres; try discriminate; injection Hres as <-; lia.
Qed.

Lemma worldToImage_some p scale n a :
  worldToImage p scale n = Some a ->
  exists tx ty,
    static_cast_int (get0 p * scale)%float = Some tx /\
    static_cast_int (get1 p * scale)%float = Some ty /\
    a = mk_cv_Point tx (n - ty) /\
    INT_MIN <= tx <= INT_MAX /\ INT_MIN <= n - ty <= INT_MAX.
Proof.
  unfold worldToImage.
  destruct (static_cast_int (get0 p * scale)%float) as [tx|] eqn:Hx; [|discriminate].
  destruct (static_cast_int (get1 p * scale)%float) as [ty|] eqn:Hy; [|discriminate].
  destruct (int_sub n ty) as [y|] eqn:Hs; [|discriminate].
  intros H. injection H as <-.
  unfold int_sub in Hs. apply int_result_some in Hs as [-> Hs].
  destruct (static_cast_mul _ _ _ Hx) as [_ [_ [_ Hb]]].
  exists tx, ty. repeat split; auto; lia.
Qed.

(** With a positive finite scale, image x grows with world x and image y
    decreases when world y grows (exact values). *)
Lemma worldToImage_mono p q scale ms es n a b :
  Prim2SF scale = S754_finite false ms es ->
  worldToImage p scale n = Some a -> worldToImage q scale n = Some b ->
  (sval (Prim2SF (get0 p)) <= sval (Prim2SF (get0 q)) -> pt_x a <= pt_x b) /\
  (sval (Prim2SF (get1 p)) <= sval (Prim2SF (get1 q)) -> pt_y b <= pt_y a).
Proof.
  intros Hs Ha Hb.
  destruct (worldToImage_some _ _ _ _ Ha) as [ax [ay [Hax [Hay [-> _]]]]].
  destruct (worldToImage_some _ _ _ _ Hb) as [bx [by' [Hbx [Hby [-> _]]]]].
  cbn [pt_x pt_y]. split; intros Hle.
  - exact (static_cast_mul_mono _ _ _ _ _ _ _ Hs Hle Hax Hbx).
  - pose proof (static_cast_mul_mono _ _ _ _ _ _ _ Hs Hle Hay Hby). lia.
Qed.

Lemma worldToImage_fz p scale n a :
  worldToImage p scale n = Some a ->
  fin_or_zero (Prim2SF (get0 p)) = true /\ fin_or_zero (Prim2SF (get1 p)) = true.
Proof.
  intros Ha. destruct (worldToImage_some _ _ _ _ Ha) as [tx [ty [Hx [Hy _]]]].
  destruct (static_cast_mul _ _ _ Hx) as [F0 _].
  destruct (static_cast_mul _ _ _ Hy) as [F1 _]. auto.
Qed.

Lemma cv_Rect_of_points_some pt1 pt2 r :
  cv_Rect_of_points pt1 pt2 = Some r ->
  r = mk_cv_Rect (Z.min (pt_x pt1) (pt_x pt2)) (Z.min (pt_y pt1) (pt_y pt2))
        (Z.max (pt_x pt1) (pt_x pt2) - Z.min (pt_x pt1) (pt_x pt2))
        (Z.max (pt_y pt1) (pt_y pt2) - Z.min (pt_y pt1) (pt_y pt2)).
Proof.
  unfold cv_Rect_of_points, int_sub.
  destruct (int_result (Z.max (pt_x pt1) (pt_x pt2) - Z.min (pt_x pt1) (pt_x pt2)))
    as [w|] eqn:Hw; [|discriminate].
  destruct (int_result (Z.max (pt_y pt1) (pt_y pt2) - Z.min (pt_y pt1) (pt_y pt2)))
    as [h|] eqn:Hh; [|discriminate].
  apply int_result_some in Hw as [-> _]. apply int_result_some in Hh as [-> _].
  intros H. injection H as <-. reflexivity.
Qed.

Lemma worldBoxToImageRect_some box scale n r :
  worldBoxToImageRect box scale n = Some r ->
  exists top_left bottom_right,
    worldToImage (min_corner box) scale n = Some top_left /\
    worldToImage (max_corner box) scale n = Some bottom_right /\
    cv_Rect_of_points top_left bottom_right = Some r.
Proof.
  unfold worldBoxToImageRect.
  destruct (worldToImage (min_corner box) scale n) as [tl|]; [|discriminate].
  destruct (worldToImage (max_corner box) scale n) as [br|]; [|discriminate].
  intros H. exists tl, br. auto.
Qed.

(** X1. [worldToImage] with the constants of [visualizeWithOpenCV]
    ([SCALE] = 80, [IMAGE_SIZE] = 600) is free of undefined behaviour for
    every point whose coordinates lie in [[-25000000, 25000000]]: both casts
    and the y flip stay within [int], and the image x is within
    [2000000000] and the image y within [2000000000] of 600. *)
Theorem worldToImage_in_range p :
  (-25000000 <=? get0 p)%float = true -> (get0 p <=? 25000000)%float = true ->
  (-25000000 <=? get1 p)%float = true -> (get1 p <=? 25000000)%float = true ->
  exists x y, worldToImage p SCALE IMAGE_SIZE = Some (mk_cv_Point x y) /\
    -2000000000 <= x <= 2000000000 /\
    IMAGE_SIZE - 2000000000 <= y <= IMAGE_SIZE + 2000000000.
Proof.
  intros H0l H0h H1l H1h.
  destruct (coord_cast _ H0l H0h) as [tx [Hx Hbx]].
  destruct (coord_cast _ H1l H1h) as [ty [Hy Hby]].
  exists tx, (IMAGE_SIZE - ty).
  unfold worldToImage. rewrite Hx, Hy.
  unfold int_sub, int_result.
  replace ((INT_MIN <=? IMAGE_SIZE - ty) && (IMAGE_SIZE - ty <=? INT_MAX)) with true
    by (symmetry; apply andb_true_intro; split; apply Z.leb_le;
        unfold INT_MIN, INT_MAX, IMAGE_SIZE in *; lia).
  split; [reflexivity | lia].
Qed.

Lemma worldToImage_in_range_witness :
  let p := mk_point 1.5 (-3.25) in
  ((-25000000 <=? get0 p)%float = true /\ (get0 p <=? 25000000)%float = true /\
   (-25000000 <=? get1 p)%float = true /\ (get1 p <=? 25000000)%float = true) /\
  exists x y, worldToImage p SCALE IMAGE_SIZE = Some (mk_cv_Point x y) /\
    -2000000000 <= x <= 2000000000 /\
    IMAGE_SIZE - 2000000000 <= y <= IMAGE_SIZE + 2000000000.
Proof.
  intros p. split; [vm_compute; repeat split; reflexivity|].
  apply (worldToImage_in_range p); vm_compute; reflexivity.
Defined.

(** X2. For a positive finite scale, [worldToImage] keeps the x order and
    reverses the y order (the y axis is flipped): of two points that both
    map without undefined behaviour, the one with the smaller or equal
    world x has the smaller or equal image x, and the one with the smaller
    or equal world y has the larger or equal image y. *)
Theorem worldToImage_orientation p q scale ms es image_size a b :
  Prim2SF scale = S754_finite false ms es ->
  worldToImage p scale image_size = Some a ->
  worldToImage q scale image_size = Some b ->
  ((get0 p <=? get0 q)%float = true -> pt_x a <= pt_x b) /\
  ((get1 p <=? get1 q)%float = true -> pt_y b <= pt_y a).
Proof.
  intros Hs Ha Hb.
  destruct (worldToImage_fz _ _ _ _ Ha) as [Fp0 Fp1].
  destruct (worldToImage_fz _ _ _ _ Hb) as [Fq0 Fq1].
  destruct (worldToImage_mono _ _ _ _ _ _ _ _ Hs Ha Hb) as [Hx Hy].
  rewrite !leb_fz by assumption.
  split; intros Hle; apply Z.leb_le in Hle; auto.
Qed.

Lemma worldToImage_orientation_witness :
  Prim2SF SCALE = S754_finite false 5629499534213120 (-46) /\
  worldToImage (mk_point 1.0 1.0) SCALE IMAGE_SIZE = Some (mk_cv_Point 80 520) /\
  worldToImage (mk_point 2.0 2.0) SCALE IMAGE_SIZE = Some (mk_cv_Point 160 440) /\
  (((1.0 <=? 2.0)%float = true -> 80 <= 160) /\
   ((1.0 <=? 2.0)%float = true -> 440 <= 520)).
Proof.
  split; [vm_compute; reflexivity|].
  split; [vm_compute; reflexivity|].
  split; [vm_compute; reflexivity|].
  exact (worldToImage_orientation (mk_point 1.0 1.0) (mk_point 2.0 2.0) SCALE
           5629499534213120 (-46) IMAGE_SIZE (mk_cv_Point 80 520) (mk_cv_Point 160 440)
           (eq_refl _) (eq_refl _) (eq_refl _)).
Defined.

(** X3. For every label placed by [main.cpp]'s [placeLabels] whose box
    [visualizeWithOpenCV] converts without undefined behaviour, the
    rectangle has its x at the image of [min_corner] and its y at the image
    of [max_corner]. It spans exactly between the two converted corners,
    with non-negative width and height. So the point that
    [worldBoxToImageRect] names [top_left] (the image of [min_corner]) is
    the bottom-left corner on screen, and [cv::Rect] reorders the
    y values. *)
Theorem placed_label_rect input_points lp r :
  In lp (Main.placeLabels input_points) ->
  worldBoxToImageRect (label_box lp) SCALE IMAGE_SIZE = Some r ->
  exists top_left bottom_right,
    worldToImage (min_corner (label_box lp)) SCALE IMAGE_SIZE = Some top_left /\
    worldToImage (max_corner (label_box lp)) SCALE IMAGE_SIZE = Some bottom_right /\
    r = mk_cv_Rect (pt_x top_left) (pt_y bottom_right)
          (pt_x bottom_right - pt_x top_left) (pt_y top_left - pt_y bottom_right) /\
    pt_x top_left <= pt_x bottom_right /\ pt_y bottom_right <= pt_y top_left.
Proof.
  intros Hin Hr.
  destruct (placeLabels_box_shape Main.label_width Main.label_height Main.offsets
              input_points lp Hin) as [o [_ [_ Hmax]]].
  destruct (worldBoxToImageRect_some _ _ _ _ Hr) as [tl [br [Htl [Hbr Hrect]]]].
  exists tl, br. split; [exact Htl|]. split; [exact Hbr|].
  assert (Hs : Prim2SF SCALE = S754_finite false 5629499534213120 (-46))
    by (vm_compute; reflexivity).
  destruct (worldToImage_fz _ _ _ _ Htl) as [Fm0 Fm1].
  destruct (worldToImage_fz _ _ _ _ Hbr) as [FM0 FM1].
  assert (H0 : (get0 (max_corner (label_box lp)) <? get0 (min_corner (label_box lp)))%float
               = false)
    by (rewrite Hmax; apply add_not_lt; vm_compute; exact I).
  assert (H1 : (get1 (max_corner (label_box lp)) <? get1 (min_corner (label_box lp)))%float
               = false)
    by (rewrite Hmax; apply add_not_lt; vm_compute; exact I).
  rewrite ltb_fz in H0, H1 by assumption.
  apply Z.ltb_ge in H0. apply Z.ltb_ge in H1.
  destruct (worldToImage_mono _ _ _ _ _ _ _ _ Hs Htl Hbr) as [Hx Hy].
  specialize (Hx H0). specialize (Hy H1).
  apply cv_Rect_of_points_some in Hrect.
  rewrite Z.min_l, Z.max_r, (Z.min_r (pt_y tl)), (Z.max_l (pt_y tl)) in Hrect by lia.
  auto.
Qed.

Lemma placed_label_rect_witness :
  let input := [(mk_point 1.0 1.0, "A"%string)] in
  In (mk_labeled_point (mk_point 1.0 1.0) "A"
        (mk_box (mk_point 1.2 1.2) (mk_point 1.6000000000000001 1.3999999999999999)))
     (Main.placeLabels input) /\
  worldBoxToImageRect (mk_box (mk_point 1.2 1.2) (mk_point 1.6000000000000001 1.3999999999999999))
    SCALE IMAGE_SIZE = Some (mk_cv_Rect 96 488 32 16) /\
  exists top_left bottom_right,
    worldToImage (mk_point 1.2 1.2) SCALE IMAGE_SIZE = Some top_left /\
    worldToImage (mk_point 1.6000000000000001 1.3999999999999999) SCALE IMAGE_SIZE = Some bottom_right /\
    mk_cv_Rect 96 488 32 16 = mk_cv_Rect (pt_x top_left) (pt_y bottom_right)
          (pt_x bottom_right - pt_x top_left) (pt_y top_left - pt_y bottom_right) /\
    pt_x top_left <= pt_x bottom_right /\ pt_y bottom_right <= pt_y top_left.
Proof.
  intros input.
  assert (Hin : In (mk_labeled_point (mk_point 1.0 1.0) "A"
        (mk_box (mk_point 1.2 1.2) (mk_point 1.6000000000000001 1.3999999999999999)))
     (Main.placeLabels input)) by (vm_compute; left; reflexivity).
  split; [exact Hin|]. split; [vm_compute; reflexivity|].
  exact (placed_label_rect input _ (mk_cv_Rect 96 488 32 16) Hin
           ltac:(vm_compute; reflexivity)).
Defined.

(** X4. The centre [visualizeWithOpenCV] computes for a converted box,
    [(x + width / 2, y + height / 2)], never overflows and lies inside the
    rectangle: for every box, scale and image size for which
    [worldBoxToImageRect] is defined. *)
Theorem box_center_inside box scale image_size r :
  worldBoxToImageRect box scale image_size = Some r ->
  exists c, box_center r = Some c /\
    rect_x r <= pt_x c <= rect_x r + rect_width r /\
    rect_y r <= pt_y c <= rect_y r + rect_height r.
Proof.
  intros Hr.
  destruct (worldBoxToImageRect_some _ _ _ _ Hr) as [tl [br [Htl [Hbr Hrect]]]].
  destruct (worldToImage_some _ _ _ _ Htl) as [ax [ay [_ [_ [Ha [Hax Hay]]]]]].
  destruct (worldToImage_some _ _ _ _ Hbr) as [bx [by' [_ [_ [Hb [Hbx Hby]]]]]].
  apply cv_Rect_of_points_some in Hrect. subst r tl br. cbn [pt_x pt_y rect_x rect_y rect_width rect_height].
  set (x0 := Z.min ax bx). set (x1 := Z.max ax bx).
  set (y0 := Z.min (image_size - ay) (image_size - by')).
  set (y1 := Z.max (image_size - ay) (image_size - by')).
  assert (Hx : INT_MIN <= x0 /\ x0 <= x1 /\ x1 <= INT_MAX) by (unfold x0, x1; lia).
  assert (Hy : INT_MIN <= y0 /\ y0 <= y1 /\ y1 <= INT_MAX) by (unfold y0, y1; lia).
  assert (Qx : 0 <= Z.quot (x1 - x0) 2 <= x1 - x0).
  { split; [apply Z.quot_pos; lia|]. apply Z.quot_le_upper_bound; lia. }
  assert (Qy : 0 <= Z.quot (y1 - y0) 2 <= y1 - y0).
  { split; [apply Z.quot_pos; lia|]. apply Z.quot_le_upper_bound; lia. }
  exists (mk_cv_Point (x0 + Z.quot (x1 - x0) 2) (y0 + Z.quot (y1 - y0) 2)).
  unfold box_center, int_add, int_result. cbn [rect_x rect_y rect_width rect_height].
  replace ((INT_MIN <=? x0 + Z.quot (x1 - x0) 2) && (x0 + Z.quot (x1 - x0) 2 <=? INT_MAX))
    with true by (symmetry; apply andb_true_intro; split; apply Z.leb_le; lia).
  replace ((INT_MIN <=? y0 + Z.quot (y1 - y0) 2) && (y0 + Z.quot (y1 - y0) 2 <=? INT_MAX))
    with true by (symmetry; apply andb_true_intro; split; apply Z.leb_le; lia).
  cbn [pt_x pt_y]. split; [reflexivity | lia].
Qed.

Lemma box_center_inside_witness :
  worldBoxToImageRect (mk_box (mk_point 1.2 1.2) (mk_point 1.6000000000000001 1.3999999999999999))
    SCALE IMAGE_SIZE = Some (mk_cv_Rect 96 488 32 16) /\
  exists c, box_center (mk_cv_Rect 96 488 32 16) = Some c /\
    96 <= pt_x c <= 96 + 32 /\ 488 <= pt_y c <= 488 + 16.
Proof.
  split; [vm_compute; reflexivity|].
  exact (box_center_inside (mk_box (mk_point 1.2 1.2) (mk_point 1.6000000000000001 1.3999999999999999))
           SCALE IMAGE_SIZE (mk_cv_Rect 96 488 32 16) ltac:(vm_compute; reflexivity)).
Defined.

End Image_facts.

(** * More properties of the placement loop *)

Section Placement_extras.

Variables label_width label_height : float.
Variable offsets : list (float * float).

Local Abbreviation candidate_box := (Placement.candidate_box label_width label_height).
Local Abbreviation try_offsets := (Placement.try_offsets label_width label_height).
Local Abbreviation place_step := (Placement.place_step label_width label_height offsets).
Local Abbreviation placeLabels := (Placement.placeLabels label_width label_height offsets).

Lemma try_offsets_first pt s offs result lp :
  try_offsets pt s offs result = Some lp ->
  exists offs1 off offs2, offs = offs1 ++ off :: offs2 /\
    lp = mk_labeled_point pt s (candidate_box pt off) /\
    hasOverlap (candidate_box pt off) result = false /\
    (forall o, In o offs1 -> hasOverlap (candidate_box pt o) result = true).
Proof.
  induction offs as [|o rest IH]; simpl; [discriminate|].
  case_eq (hasOverlap (candidate_box pt o) result); simpl; intros Hov H.
  - destruct (IH H) as [offs1 [off [offs2 [-> [Hlp [Hf Hb]]]]]].
    exists (o :: offs1), off, offs2.
    split; [reflexivity | split; [exact Hlp | split; [exact Hf|]]].
    intros o' [<-|Ho']; [exact Hov | exact (Hb o' Ho')].
  - injection H as <-. exists [], o, rest.
    split; [reflexivity | split; [reflexivity | split; [exact Hov|]]].
    intros o' [].
Qed.

Lemma snoc_split {A : Type} (pre post result : list A) x y :
  pre ++ x :: post = result ++ [y] ->
  (pre = result /\ x = y) \/
  (exists post0, result = pre ++ x :: post0).
Proof.
  destruct post as [|z l] using rev_ind; intros H.
  - left. apply app_inj_tail in H. exact H.
  - right. exists l. rewrite app_comm_cons, app_assoc in H.
    apply app_inj_tail in H as [H _]. symmetry. exact H.
Qed.

Lemma fold_first_fit l : forall result,
  (forall pre lp post, result = pre ++ lp :: post ->
     exists offs1 off offs2, offsets = offs1 ++ off :: offs2 /\
       label_box lp = candidate_box (point lp) off /\
       hasOverlap (candidate_box (point lp) off) pre = false /\
       (forall o, In o offs1 -> hasOverlap (candidate_box (point lp) o) pre = true)) ->
  forall pre lp post, fold_left place_step l result = pre ++ lp :: post ->
     exists offs1 off offs2, offsets = offs1 ++ off :: offs2 /\
       label_box lp = candidate_box (point lp) off /\
       hasOverlap (candidate_box (point lp) off) pre = false /\
       (forall o, In o offs1 -> hasOverlap (candidate_box (point lp) o) pre = true).
Proof.
  induction l as [|[pt s] l IH]; intros result Hinv; cbn [fold_left]; [exact Hinv|].
  apply IH. intros pre lp post Heq.
  case_eq (try_offsets pt s offsets result); [intros q Hq | intros Hq].
  - rewrite (place_step_some label_width label_height offsets _ _ _ _ Hq) in Heq.
    destruct (snoc_split _ _ _ _ _ (eq_sym Heq)) as [[-> ->] | [post0 ->]].
    + destruct (try_offsets_first _ _ _ _ _ Hq) as [offs1 [off [offs2 [Ho [-> [Hf Hb]]]]]].
      exists offs1, off, offs2. cbn [label_box point]. auto.
    + exact (Hinv pre lp post0 eq_refl).
  - rewrite (place_step_none label_width label_height offsets _ _ _ Hq) in Heq.
    exact (Hinv pre lp post Heq).
Qed.

Lemma try_offsets_free pt s offs result off :
  In off offs -> hasOverlap (candidate_box pt off) result = false ->
  exists lp, try_offsets pt s offs result = Some lp.
Proof.
  induction offs as [|o rest IH]; [intros []|]. intros [<-|Hin] Hf; simpl.
  - rewrite Hf. simpl. eexists; reflexivity.
  - destruct (hasOverlap (candidate_box pt o) result); simpl; [exact (IH Hin Hf)|].
    eexists; reflexivity.
Qed.


(** Floats that are NaN: arithmetic keeps them NaN and comparisons with them
    are false. *)
Lemma is_nan_prim x : PrimFloat.is_nan x = true -> Prim2SF x = S754_nan.
Proof.
  unfold PrimFloat.is_nan. rewrite FloatAxioms.eqb_spec. unfold SFeqb.
  destruct (Prim2SF x) as [sx|sx| |sx mx ex] eqn:Hx; try reflexivity.
  - discriminate.
  - destruct sx; discriminate.
  - rewrite <- Hx, (Image_facts.compare_fz _ _ (Prim2SF_valid x) (Prim2SF_valid x))
      by (rewrite Hx; reflexivity).
    rewrite Z.compare_refl. discriminate.
Qed.

Lemma nan_add x y : Prim2SF x = S754_nan -> Prim2SF (x + y)%float = S754_nan.
Proof. intros Hx. rewrite add_spec, Hx. reflexivity. Qed.

Lemma nan_ltb_l x y : Prim2SF x = S754_nan -> (x <? y)%float = false.
Proof. intros Hx. rewrite ltb_spec, Hx. reflexivity. Qed.

Lemma nan_ltb_r x y : Prim2SF y = S754_nan -> (x <? y)%float = false.
Proof. intros Hy. rewrite ltb_spec, Hy. destruct (Prim2SF x); reflexivity. Qed.

Lemma candidate_box_nan pt off :
  Prim2SF (get0 pt) = S754_nan -> Prim2SF (get1 pt) = S754_nan ->
  Prim2SF (get0 (min_corner (candidate_box pt off))) = S754_nan /\
  Prim2SF (get1 (min_corner (candidate_box pt off))) = S754_nan /\
  Prim2SF (get0 (max_corner (candidate_box pt off))) = S754_nan /\
  Prim2SF (get1 (max_corner (candidate_box pt off))) = S754_nan.
Proof.
  intros H0 H1. destruct off as [dx dy]. cbn.
  split; [apply nan_add, H0 | split; [apply nan_add, H1 | split]];
    apply nan_add, nan_add; assumption.
Qed.

Lemma intersects_nan_box b c :
  Prim2SF (get0 (min_corner b)) = S754_nan -> Prim2SF (get1 (min_corner b)) = S754_nan ->
  Prim2SF (get0 (max_corner b)) = S754_nan -> Prim2SF (get1 (max_corner b)) = S754_nan ->
  intersects b c = true /\ intersects c b = true.
Proof.
  intros H1 H2 H3 H4. unfold intersects, disjoint, disjoint_dim.
  rewrite ?(nan_ltb_l _ _ H1), ?(nan_ltb_l _ _ H2), ?(nan_ltb_l _ _ H3),
    ?(nan_ltb_l _ _ H4), ?(nan_ltb_r _ _ H1), ?(nan_ltb_r _ _ H2),
    ?(nan_ltb_r _ _ H3), ?(nan_ltb_r _ _ H4).
  split; reflexivity.
Qed.

Lemma fold_blocked l lp :
  Prim2SF (get0 (min_corner (label_box lp))) = S754_nan ->
  Prim2SF (get1 (min_corner (label_box lp))) = S754_nan ->
  Prim2SF (get0 (max_corner (label_box lp))) = S754_nan ->
  Prim2SF (get1 (max_corner (label_box lp))) = S754_nan ->
  fold_left place_step l [lp] = [lp].
Proof.
  intros H1 H2 H3 H4. induction l as [|[pt s] l IH]; cbn [fold_left]; [reflexivity|].
  rewrite (place_step_none label_width label_height offsets); [exact IH|].
  apply (try_offsets_none label_width label_height).
  intros off _. cbn [hasOverlap].
  destruct (intersects_nan_box _ (candidate_box pt off) H1 H2 H3 H4) as [_ ->].
  reflexivity.
Qed.

(** X5. [placeLabels] is first-fit: each entry of the result sits at the
    first offset, in the order of the offset list, whose candidate box
    overlaps none of the entries placed before it; every earlier offset's
    candidate overlaps one of them. *)
Theorem placeLabels_first_fit input_points pre lp post :
  placeLabels input_points = pre ++ lp :: post ->
  exists offs1 off offs2, offsets = offs1 ++ off :: offs2 /\
    label_box lp = candidate_box (point lp) off /\
    hasOverlap (candidate_box (point lp) off) pre = false /\
    (forall o, In o offs1 -> hasOverlap (candidate_box (point lp) o) pre = true).
Proof.
  apply fold_first_fit. intros pre' lp' post' H. destruct pre'; discriminate.
Qed.

(** X6. A point with at least one offset whose candidate box overlaps none
    of the labels placed for the points before it is always placed: the
    result gets one more entry, for this point and label, and the labels
    placed before it stay as they were. *)
Theorem placeLabels_places_free pre pt s post off :
  In off offsets -> hasOverlap (candidate_box pt off) (placeLabels pre) = false ->
  exists lp t, placeLabels (pre ++ (pt, s) :: post) = placeLabels pre ++ lp :: t /\
    point lp = pt /\ label lp = s.
Proof.
  intros Hin Hf. destruct (try_offsets_free pt s offsets _ off Hin Hf) as [lp Hlp].
  destruct (try_offsets_some label_width label_height _ _ _ _ _ Hlp) as [Hp [Hs _]].
  assert (E : placeLabels (pre ++ (pt, s) :: post) =
              fold_left place_step post (place_step (placeLabels pre) (pt, s)))
    by (unfold Placement.placeLabels; rewrite fold_left_app; reflexivity).
  rewrite E, (place_step_some label_width label_height offsets _ _ _ _ Hlp).
  destruct (fold_place_extends label_width label_height offsets post
              (placeLabels pre ++ [lp])) as [t Ht].
  exists lp, t. rewrite Ht, <- app_assoc. auto.
Qed.

(** X7. A point whose two coordinates are NaN gets NaN candidate boxes,
    which [intersects] reports as overlapping every box. If some label was
    placed before it, it is dropped. If none was, it is placed at the
    first offset, and then its NaN box blocks every later point: the
    result is that single entry. *)
Theorem placeLabels_nan_point pre pt s post :
  PrimFloat.is_nan (get0 pt) = true -> PrimFloat.is_nan (get1 pt) = true ->
  (placeLabels pre <> [] ->
     placeLabels (pre ++ (pt, s) :: post) = placeLabels (pre ++ post)) /\
  (forall off offs', offsets = off :: offs' -> placeLabels pre = [] ->
     placeLabels (pre ++ (pt, s) :: post) = [mk_labeled_point pt s (candidate_box pt off)]).
Proof.
  intros N0 N1. apply is_nan_prim in N0. apply is_nan_prim in N1.
  split.
  - intros Hne.
    assert (Hstep : place_step (placeLabels pre) (pt, s) = placeLabels pre).
    { apply (place_step_none label_width label_height offsets).
      apply (try_offsets_none label_width label_height). intros off _.
      destruct (candidate_box_nan pt off N0 N1) as [H1 [H2 [H3 H4]]].
      destruct (placeLabels pre) as [|q rest]; [contradiction|].
      cbn [hasOverlap].
      destruct (intersects_nan_box _ (label_box q) H1 H2 H3 H4) as [-> _].
      reflexivity. }
    unfold Placement.placeLabels in *.
    rewrite !fold_left_app. cbn [fold_left]. rewrite Hstep. reflexivity.
  - intros off offs' Hoff Hnil.
    unfold Placement.placeLabels in *. rewrite fold_left_app, Hnil. cbn [fold_left].
    assert (Hstep : place_step [] (pt, s) = [mk_labeled_point pt s (candidate_box pt off)]).
    { unfold Placement.place_step. rewrite Hoff. reflexivity. }
    rewrite Hstep.
    destruct (candidate_box_nan pt off N0 N1) as [H1 [H2 [H3 H4]]].
    exact (fold_blocked post (mk_labeled_point pt s (candidate_box pt off)) H1 H2 H3 H4).
Qed.


Lemma try_offsets_at pt s offs1 off offs2 result :
  (forall o, In o offs1 -> hasOverlap (candidate_box pt o) result = true) ->
  hasOverlap (candidate_box pt off) result = false ->
  try_offsets pt s (offs1 ++ off :: offs2) result =
    Some (mk_labeled_point pt s (candidate_box pt off)).
Proof.
  induction offs1 as [|o rest IH]; intros Hb Hf; cbn [app Placement.try_offsets].
  - rewrite Hf. reflexivity.
  - rewrite (Hb o (or_introl eq_refl)). cbn [negb].
    apply IH; [intros o' Ho'; apply Hb; right; exact Ho' | exact Hf].
Qed.

Lemma fold_replay R :
  (forall pre lp post, R = pre ++ lp :: post ->
     exists offs1 off offs2, offsets = offs1 ++ off :: offs2 /\
       label_box lp = candidate_box (point lp) off /\
       hasOverlap (candidate_box (point lp) off) pre = false /\
       (forall o, In o offs1 -> hasOverlap (candidate_box (point lp) o) pre = true)) ->
  fold_left place_step (map entry_of R) [] = R.
Proof.
  induction R as [|lp R IH] using rev_ind; intros Hff; [reflexivity|].
  rewrite map_app, fold_left_app, IH.
  - cbn [map fold_left]. unfold entry_of.
    destruct (Hff R lp [] eq_refl) as [offs1 [off [offs2 [Ho [Hb [Hf Hprev]]]]]].
    unfold Placement.place_step. rewrite Ho, (try_offsets_at _ _ _ _ _ _ Hprev Hf).
    rewrite <- Hb. destruct lp; reflexivity.
  - intros pre q post E. apply (Hff pre q (post ++ [lp])).
    rewrite E, <- app_assoc. reflexivity.
Qed.

(** X9. Placing again the points that [placeLabels] labeled, with their
    labels and in the order of the result, reproduces the result exactly. *)
Theorem placeLabels_replay input_points :
  placeLabels (map entry_of (placeLabels input_points)) = placeLabels input_points.
Proof.
  apply fold_replay. intros pre lp post E.
  refine (fold_first_fit input_points [] _ pre lp post E).
  intros pre' lp' post' H. destruct pre'; discriminate.
Qed.

End Placement_extras.

Lemma placeLabels_first_fit_witness :
  let lpA := mk_labeled_point (mk_point 0 0) "A"
               (Placement.candidate_box Source.label_width Source.label_height
                  (mk_point 0 0) (1, 1)%float) in
  let lpB := mk_labeled_point (mk_point 0 1) "B"
               (Placement.candidate_box Source.label_width Source.label_height
                  (mk_point 0 1) (-1 - Source.label_width, 1)%float) in
  let input := [(mk_point 0 0, "A"%string); (mk_point 0 1, "B"%string)] in
  Source.placeLabels input = [lpA] ++ lpB :: [] /\
  exists offs1 off offs2, Source.offsets = offs1 ++ off :: offs2 /\
    label_box lpB = Placement.candidate_box Source.label_width Source.label_height
                      (point lpB) off /\
    hasOverlap (Placement.candidate_box Source.label_width Source.label_height
                  (point lpB) off) [lpA] = false /\
    (forall o, In o offs1 ->
       hasOverlap (Placement.candidate_box Source.label_width Source.label_height
                     (point lpB) o) [lpA] = true).
Proof.
  intros lpA lpB input.
  assert (H : Source.placeLabels input = [lpA] ++ lpB :: []) by (vm_compute; reflexivity).
  split; [exact H|].
  exact (placeLabels_first_fit Source.label_width Source.label_height Source.offsets
           input [lpA] lpB [] H).
Defined.

Lemma placeLabels_places_free_witness :
  let off := (-1 - Source.label_width, 1)%float in
  In off Source.offsets /\
  hasOverlap (Placement.candidate_box Source.label_width Source.label_height
                (mk_point 0 1) off)
    (Source.placeLabels [(mk_point 0 0, "A"%string)]) = false /\
  exists lp t,
    Source.placeLabels ([(mk_point 0 0, "A"%string)] ++ (mk_point 0 1, "B"%string) :: []) =
      Source.placeLabels [(mk_point 0 0, "A"%string)] ++ lp :: t /\
    point lp = mk_point 0 1 /\ label lp = "B"%string.
Proof.
  intros off.
  assert (Hin : In off Source.offsets) by (right; left; reflexivity).
  assert (Hf : hasOverlap (Placement.candidate_box Source.label_width Source.label_height
                (mk_point 0 1) off) (Source.placeLabels [(mk_point 0 0, "A"%string)]) = false)
    by (vm_compute; reflexivity).
  split; [exact Hin | split; [exact Hf|]].
  exact (placeLabels_places_free Source.label_width Source.label_height Source.offsets
           [(mk_point 0 0, "A"%string)] (mk_point 0 1) "B" [] off Hin Hf).
Defined.

Lemma placeLabels_nan_point_witness :
  let pt := mk_point PrimFloat.nan PrimFloat.nan in
  PrimFloat.is_nan (get0 pt) = true /\ PrimFloat.is_nan (get1 pt) = true /\
  ((Source.placeLabels [(mk_point 0 0, "A"%string)] <> [] ->
      Source.placeLabels ([(mk_point 0 0, "A"%string)] ++ (pt, "N"%string) ::
                          [(mk_point 20 20, "C"%string)]) =
      Source.placeLabels ([(mk_point 0 0, "A"%string)] ++ [(mk_point 20 20, "C"%string)])) /\
   (forall off offs', Source.offsets = off :: offs' ->
      Source.placeLabels [] = [] ->
      Source.placeLabels ([] ++ (pt, "N"%string) :: [(mk_point 20 20, "C"%string)]) =
      [mk_labeled_point pt "N"
         (Placement.candidate_box Source.label_width Source.label_height pt off)])).
Proof.
  intros pt.
  assert (N : PrimFloat.is_nan PrimFloat.nan = true) by (vm_compute; reflexivity).
  split; [exact N | split; [exact N|]].
  split.
  - exact (proj1 (placeLabels_nan_point Source.label_width Source.label_height Source.offsets
             [(mk_point 0 0, "A"%string)] pt "N" [(mk_point 20 20, "C"%string)] N N)).
  - exact (proj2 (placeLabels_nan_point Source.label_width Source.label_height Source.offsets
             [] pt "N" [(mk_point 20 20, "C"%string)] N N)).
Defined.

(** * The report of unlabeled points ([main.cpp]) *)

Section Report.

Variable equals : point_t -> point_t -> bool.
Hypothesis equals_refl : forall p,
  PrimFloat.is_nan (get0 p) = false -> PrimFloat.is_nan (get1 p) = false -> equals p p = true.

Lemma subseq_in {A : Type} (s l : list A) x : subseq s l -> In x s -> In x l.
Proof.
  induction 1 as [|y s' l' _ IH|y s' l' _ IH]; simpl; [tauto| |]; intros Hx.
  - destruct Hx as [<-|Hx]; [left; reflexivity | right; apply IH, Hx].
  - right. apply IH, Hx.
Qed.

Lemma filter_subseq_length {A : Type} (f : A -> bool) (s l : list A) :
  subseq s l -> (forall x, In x s -> f x = false) ->
  length (filter f l) + length s <= length l.
Proof.
  induction 1 as [|y s' l' _ IH|y s' l' _ IH]; intros Hs; [simpl; lia| |].
  - simpl. rewrite (Hs y (or_introl eq_refl)).
    enough (length (filter f l') + length s' <= length l') by lia.
    apply IH. intros x Hx. apply Hs. right. exact Hx.
  - simpl. specialize (IH Hs). destruct (f y); simpl; lia.
Qed.

(** X8. With any point comparison that holds between a NaN-free point and
    itself, and an input of NaN-free points, the number of labels placed
    plus the number of points reported as unlabeled is at most the number
    of input points: every placed entry comes from its own input entry
    and is never reported, so a point is not counted twice. *)
Theorem unlabeled_report points :
  (forall pp, In pp points ->
     PrimFloat.is_nan (get0 (fst pp)) = false /\ PrimFloat.is_nan (get1 (fst pp)) = false) ->
  length (Image.unlabeled_points equals points (Main.placeLabels points))
    + length (Main.placeLabels points) <= length points.
Proof.
  intros HN.
  pose proof (fold_subseq Main.label_width Main.label_height Main.offsets points []) as Hsub.
  cbn [map app] in Hsub.
  change (fold_left (Placement.place_step Main.label_width Main.label_height Main.offsets) points [])
    with (Main.placeLabels points) in Hsub.
  rewrite <- (length_map entry_of (Main.placeLabels points)).
  unfold Image.unlabeled_points.
  apply filter_subseq_length; [exact Hsub|].
  intros x Hx.
  destruct (proj1 (in_map_iff _ _ _) Hx) as [lp [<- Hlp]].
  destruct (HN _ (subseq_in _ _ _ Hsub Hx)) as [N0 N1].
  cbn [entry_of fst] in N0, N1 |- *.
  unfold Image.has_label.
  enough (E : existsb (fun lp' => equals (point lp') (point lp)) (Main.placeLabels points) = true)
    by (rewrite E; reflexivity).
  apply existsb_exists. exists lp. split; [exact Hlp|]. apply equals_refl; assumption.
Qed.

End Report.

Lemma float_eqb_refl x : PrimFloat.is_nan x = false -> (x =? x)%float = true.
Proof. unfold PrimFloat.is_nan. destruct (x =? x)%float; [reflexivity | discriminate]. Qed.

Lemma unlabeled_report_witness :
  let equals := fun p q : point_t => ((get0 p =? get0 q)%float && (get1 p =? get1 q)%float)%bool in
  let points := [(mk_point 0.2 (-0.1), "A"%string); (mk_point (-0.6) 0.2, "B"%string);
                 (mk_point 0.3 0.1, "C"%string); (mk_point 0.4 0.1, "D"%string);
                 (mk_point 0 0, "E"%string); (mk_point 0.4 0.1, "F"%string)] in
  Image.unlabeled_points equals points (Main.placeLabels points) = [(mk_point 0 0, "E"%string)] /\
  length (Main.placeLabels points) = 4 /\
  length (Image.unlabeled_points equals points (Main.placeLabels points))
    + length (Main.placeLabels points) <= length points.
Proof.
  intros equals points.
  split; [vm_compute; reflexivity|]. split; [vm_compute; reflexivity|].
  apply (unlabeled_report equals).
  - intros p P0 P1. unfold equals. rewrite !float_eqb_refl by assumption. reflexivity.
  - intros pp Hin. unfold points in Hin.
    repeat (destruct Hin as [<-|Hin]; [split; vm_compute; reflexivity|]).
    destruct Hin.
Defined.
